(** * Merit-order script [TradingAnalytics/tradingExample.py]

    A shallow embedding of the table transformations of the script and
    the properties of its marginal price estimator.

    Data frames are lists of records, columns are lists.  Timestamps are
    integers (any totally ordered key does).  Day-ahead prices are exact
    rationals and a null is [None].  The raw "Generation (MW)" value is
    a rational; the script divides it by 50, takes the ceiling and
    multiplies by 50, which leaves an integral value: the rounded
    generation column is kept in [Z].  (On integral MW readings below
    2^53 the float computation of the script is exact, so the embedding
    and the script agree there.)

    CSV reading, timestamp parsing and the drawing itself are library
    calls outside this development.  The pipeline proper starts from
    [prices_df] (after line 27) and [plant_production_df] (after line
    47); the steps before it that the script spells out (the split of
    the MTU text, the hourly resampling, the filling of null
    generation) and the geometry of the bars are embedded in the
    section on the loaders and the chart.  "Unit Name" is a string. *)

From Stdlib Require Import ZArith QArith Qround List String Bool Lia.
From Stdlib Require Import Permutation Sorted Ascii.
Import ListNotations.

Local Open Scope Z_scope.

(** ** Tables *)

(** [prices_df], hourly: one row per bucket of [group_by_dynamic];
    the mean of a bucket whose prices are all null is null. *)
Record PriceRow : Type := mkPrice {
  price_datetime : Z;
  hourly_price : option Q
}.

(** [plant_production_df] after the [select] of lines 43-47:
    [fill_null(0)] has removed the nulls of the generation column.
    Every row carries a unit name: a null "Unit Name" would make the
    loop of line 59 filter an empty frame for it, on which line 73
    raises, and is not represented. *)
Record ProductionRow : Type := mkProduction {
  datetime : Z;
  unit_name : string;
  generation_mw : Q
}.

(** [plant_production_df] after the left join of lines 50-54. *)
Record JoinedRow : Type := mkJoined {
  production : ProductionRow;
  day_ahead_price : option Q
}.

(** A row of [unit_df] inside the loop, once [generation] is rounded
    (line 65) and [group_id] is added (line 89).  [is_zero] is
    [generation =? 0]. *)
Record UnitRow : Type := mkUnitRow {
  generation : Z;
  price : option Q;
  group_id : nat
}.

(** One dictionary appended to [results]: the keys "unit",
    "generation" ([max_generation], the maximum of the rounded column)
    and "marginal_price" (null when no average is available). *)
Record MarginalResult : Type := mkResult {
  unit : string;
  max_generation : Z;
  marginal_price : option Q
}.

(** A row of [marginal_results_df] after line 114. *)
Record MeritRow : Type := mkMerit {
  result : MarginalResult;
  cumulated_generation : Z
}.

(** What one iteration of the loop of line 59 does. *)
Inductive Outcome : Type :=
| Raise                      (* an uncaught exception ends the script *)
| Skip                       (* [continue] without appending *)
| Emit (r : MarginalResult). (* [results.append(...)] *)

(** ** Column operations *)

(** [how="left"] join on one key: every left row is kept; it is paired
    with each right row of equal key, or once with null when there is
    none. *)
Definition left_join {A K V : Type} (eqb : K -> K -> bool)
    (key : A -> K) (left : list A) (right : list (K * V))
    : list (A * option V) :=
  flat_map
    (fun a =>
       match filter (fun kv => eqb (key a) (fst kv)) right with
       | [] => [(a, None)]
       | ms => map (fun kv => (a, Some (snd kv))) ms
       end)
    left.

(** A null cell: either the join missed or the joined value is null. *)
Definition null_join {V : Type} (o : option (option V)) : option V :=
  match o with
  | Some v => v
  | None => None
  end.

(** [Series.unique()] / the keys of a [group_by]: the distinct values
    (here in order of first occurrence; polars leaves the order open). *)
Fixpoint unique {A : Type} (eqb : A -> A -> bool) (l : list A) : list A :=
  match l with
  | [] => []
  | x :: t => x :: filter (fun y => negb (eqb x y)) (unique eqb t)
  end.

(** [sort(key)], ascending, as a stable insertion sort. *)
Fixpoint insert_by {A : Type} (leb : A -> A -> bool) (x : A) (l : list A)
    : list A :=
  match l with
  | [] => [x]
  | y :: t => if leb x y then x :: l else y :: insert_by leb x t
  end.

Definition sort_by {A : Type} (leb : A -> A -> bool) (l : list A) : list A :=
  fold_right (insert_by leb) [] l.

(** [Series.max()] and [Series.min()] of an integral column: null on an
    empty column. *)
Definition series_max (l : list Z) : option Z :=
  match l with
  | [] => None
  | x :: t => Some (fold_left Z.max t x)
  end.

Definition series_min (l : list Z) : option Z :=
  match l with
  | [] => None
  | x :: t => Some (fold_left Z.min t x)
  end.

(** The non-null cells of a nullable column. *)
Definition drop_nulls {V : Type} (l : list (option V)) : list V :=
  flat_map (fun o => match o with Some v => [v] | None => [] end) l.

Definition Qsum (l : list Q) : Q := fold_right Qplus 0%Q l.

(** [mean()] of a nullable float column: nulls are left out of both the
    sum and the count; null when nothing is left. *)
Definition mean (l : list (option Q)) : option Q :=
  match drop_nulls l with
  | [] => None
  | p :: ps =>
      Some (Qsum (p :: ps) / inject_Z (Z.of_nat (List.length (p :: ps))))%Q
  end.

(** [min()] of a nullable float column: nulls are skipped; null when
    nothing is left. *)
Definition Qmin_list (l : list (option Q)) : option Q :=
  match drop_nulls l with
  | [] => None
  | p :: ps => Some (fold_left (fun m q => if Qle_bool m q then m else q) ps p)
  end.

(** [cum_sum()] of a Boolean column counts the [true] cells up to and
    including each row. *)
Fixpoint cum_sum_from (acc : nat) (l : list bool) : list nat :=
  match l with
  | [] => []
  | b :: t =>
      let acc' := (if b then S acc else acc) in acc' :: cum_sum_from acc' t
  end.

Definition cum_sum_bool (l : list bool) : list nat := cum_sum_from 0 l.

(** [cum_sum()] of an integral column. *)
Fixpoint cum_sum_Z_from (acc : Z) (l : list Z) : list Z :=
  match l with
  | [] => []
  | x :: t => (acc + x) :: cum_sum_Z_from (acc + x) t
  end.

Definition cum_sum (l : list Z) : list Z := cum_sum_Z_from 0 l.

(** ** The pipeline *)

(** Lines 50-54: [day_ahead_price] joined onto the production rows. *)
Definition join_prices (plant_production_df : list ProductionRow)
    (prices_df : list PriceRow) : list JoinedRow :=
  map (fun ap => mkJoined (fst ap) (null_join (snd ap)))
      (left_join Z.eqb datetime plant_production_df
         (map (fun p => (price_datetime p, hourly_price p)) prices_df)).

(** Line 65: [(generation / 50).ceil().mul(50)]. *)
Definition round50 (g : Q) : Z := Qceiling (g / 50) * 50.

(** Lines 64-66: the [generation] column of [unit_df], rounded. *)
Definition rounded (unit_df : list JoinedRow) : list Z :=
  map (fun r => round50 (generation_mw (production r))) unit_df.

(** Lines 83-90: [is_zero] and [group_id = is_zero.cum_sum()]. *)
Definition is_zero (g : Z) : bool := g =? 0.

Definition group_ids (gen : list Z) : list nat :=
  cum_sum_bool (map is_zero gen).

Definition with_group_id (gen : list Z) (prices : list (option Q))
    : list UnitRow :=
  map (fun x => mkUnitRow (fst (fst x)) (snd (fst x)) (snd x))
      (combine (combine gen prices) (group_ids gen)).

(** Lines 93-95: [group_by("group_id").agg(mean)]: for each distinct
    id, the mean of [day_ahead_price] over the rows that carry it. *)
Definition avg_price (unit_df : list UnitRow) (g : nat) : option Q :=
  mean (map price (filter (fun r => Nat.eqb (group_id r) g) unit_df)).

Definition group_avg (unit_df : list UnitRow) : list (nat * option Q) :=
  map (fun g => (g, avg_price unit_df g))
      (unique Nat.eqb (map group_id unit_df)).

(** Line 98: [avg_price] joined back on [group_id]. *)
Definition with_avg_price (unit_df : list UnitRow)
    : list (UnitRow * option Q) :=
  map (fun ra => (fst ra, null_join (snd ra)))
      (left_join Nat.eqb group_id unit_df (group_avg unit_df)).

(** Lines 61-106, the body of the loop, on the unit's rows already
    filtered and sorted by [datetime]. *)
Definition estimate_unit (name : string) (unit_df : list JoinedRow)
    : Outcome :=
  let gen := rounded unit_df in
  match series_max gen, series_min gen with
  | Some mx, Some mn =>
      if mx =? 0 then Skip
      else if 0 <? mn then Emit (mkResult name mx (Some 0%Q))
      else
        let rows := with_group_id gen (map day_ahead_price unit_df) in
        let kept :=
          filter (fun ra => generation (fst ra) =? mx) (with_avg_price rows) in
        match series_max (map (fun ra => generation (fst ra)) kept) with
        | Some g => Emit (mkResult name g (Qmin_list (map snd kept)))
        | None => Raise (* not reached: a row at the maximum is kept *)
        end
  | _, _ => Raise (* [None > 0] on an empty frame is a TypeError *)
  end.

(** Line 61: the rows of one unit in ascending [datetime]. *)
Definition unit_frame (df : list JoinedRow) (name : string) : list JoinedRow :=
  sort_by (fun a b => datetime (production a) <=? datetime (production b))
    (filter (fun r => String.eqb (unit_name (production r)) name) df).

(** Lines 57-106: the loop over the distinct unit names. *)
Fixpoint estimate_units (df : list JoinedRow) (names : list string)
    : option (list MarginalResult) :=
  match names with
  | [] => Some []
  | n :: rest =>
      match estimate_unit n (unit_frame df n) with
      | Raise => None
      | Skip => estimate_units df rest
      | Emit r => option_map (cons r) (estimate_units df rest)
      end
  end.

Definition marginal_results (plant_production_df : list ProductionRow)
    (prices_df : list PriceRow) : option (list MarginalResult) :=
  let df := join_prices plant_production_df prices_df in
  estimate_units df
    (unique String.eqb (map (fun r => unit_name (production r)) df)).

(** Lines 112-114: ascending by [marginal_price] (nulls first), then the
    running sum of [generation].  [merit_order] is the frame for a
    non-empty [results]; on an empty list the frame has no column and
    the sort raises, see [chart]. *)
Definition price_leb (a b : MarginalResult) : bool :=
  match marginal_price a, marginal_price b with
  | None, _ => true
  | Some _, None => false
  | Some p, Some q => Qle_bool p q
  end.

Definition merit_order (results : list MarginalResult) : list MeritRow :=
  let sorted := sort_by price_leb results in
  map (fun rc => mkMerit (fst rc) (snd rc))
      (combine sorted (cum_sum (map max_generation sorted))).

(** ** The grouping the spec describes

    The specification words the grouping as maximal contiguous runs of
    zero and of non-zero rounded generation: the run index goes up
    exactly when the zero/non-zero state differs from the previous
    row's.  These definitions follow those words, to be compared with
    [group_ids] and [estimate_unit] above. *)

Fixpoint spec_run_ids_from (prev : bool) (acc : nat) (l : list bool)
    : list nat :=
  match l with
  | [] => []
  | b :: t =>
      let acc' := (if Bool.eqb b prev then acc else S acc) in
      acc' :: spec_run_ids_from b acc' t
  end.

Definition spec_run_ids (gen : list Z) : list nat :=
  match map is_zero gen with
  | [] => []
  | b :: t => 0%nat :: spec_run_ids_from b 0 t
  end.

Definition spec_rows (gen : list Z) (prices : list (option Q))
    : list UnitRow :=
  map (fun x => mkUnitRow (fst (fst x)) (snd (fst x)) (snd x))
      (combine (combine gen prices) (spec_run_ids gen)).

(** The minimum of the per-run averages over the runs that hold a row
    at the maximum rounded generation. *)
Definition spec_marginal_price (gen : list Z) (prices : list (option Q))
    : option Q :=
  match series_max gen with
  | None => None
  | Some mx =>
      let rows := spec_rows gen prices in
      let qualifying :=
        filter
          (fun g =>
             existsb
               (fun r => Nat.eqb (group_id r) g && (generation r =? mx))
               rows)
          (unique Nat.eqb (map group_id rows)) in
      Qmin_list (map (avg_price rows) qualifying)
  end.

(** ** Columns and predicates used in the statements *)

(** Two id columns cut a series into the same groups. *)
Definition same_partition (a b : list nat) : Prop :=
  forall i j x y x' y',
    nth_error a i = Some x -> nth_error a j = Some y ->
    nth_error b i = Some x' -> nth_error b j = Some y' ->
    (x = y <-> x' = y').

(** The data model's invariant on production records. *)
Definition nonneg_generation (df : list ProductionRow) : Prop :=
  forall r, In r df -> (0 <= generation_mw r)%Q.

(** Building a unit frame from its generation and price columns. *)
Definition frame (name : string) (cells : list (Q * option Q))
    : list JoinedRow :=
  map (fun c => mkJoined (mkProduction 0 name (fst c)) (snd c)) cells.

(** The [unit] column of [marginal_results_df], the final result set. *)
Definition final_units (results : list MarginalResult) : list string :=
  map (fun m => unit (result m)) (merit_order results).

(** Ascending marginal price, nulls first. *)
Definition price_le (a b : MarginalResult) : Prop :=
  match marginal_price a, marginal_price b with
  | None, _ => True
  | Some _, None => False
  | Some p, Some q => (p <= q)%Q
  end.

(** The relation decided by a Boolean comparison. *)
Definition le_of {A : Type} (leb : A -> A -> bool) (x y : A) : Prop :=
  leb x y = true.

(** [unit_df] with its [group_id] column, as the third branch sees it. *)
Definition unit_rows (unit_df : list JoinedRow) : list UnitRow :=
  with_group_id (rounded unit_df) (map day_ahead_price unit_df).

(** The [avg_price] cells of the rows kept by the filter of line 100. *)
Definition max_rows_avg (rows : list UnitRow) (mx : Z) : list (option Q) :=
  map (fun r => avg_price rows (group_id r))
      (filter (fun r => generation r =? mx) rows).

(** Whether the iteration for [name] appends a result. *)
Definition emits (df : list JoinedRow) (name : string) : bool :=
  match estimate_unit name (unit_frame df name) with
  | Emit _ => true
  | _ => false
  end.

(** The sum of an integral column. *)
Definition Zsum (l : list Z) : Z := fold_right Z.add 0 l.

(** ** Sample inputs *)

(** The example of the specification: rounded generation
    0, 0, 100, 100, 0 with prices 10, 12, 50, 55, 8. *)
Definition unit_A : list JoinedRow :=
  frame "A" [(0%Q, Some 10%Q); (0%Q, Some 12%Q); (100%Q, Some 50%Q);
             (100%Q, Some 55%Q); (0%Q, Some 8%Q)].

Definition unit_B : list JoinedRow :=
  frame "B" [(0%Q, Some 10%Q); (100%Q, Some 50%Q); (0%Q, Some 20%Q);
             (100%Q, Some 40%Q)].

Definition unit_C : list JoinedRow :=
  frame "C" [(0%Q, None); (100%Q, None); (0%Q, Some 5%Q); (100%Q, Some 7%Q)].

(** Readings -60 and 100, rounded to -50 and 100. *)
Definition sample_negative : list JoinedRow :=
  frame "N" [((-60)%Q, Some 4%Q); (100%Q, Some 8%Q)].

Definition sample_baseload : list JoinedRow :=
  frame "X" [(30%Q, Some 5%Q); (120%Q, None)].

Definition sample_point : JoinedRow :=
  mkJoined (mkProduction 7 "S" 3%Q) None.

Definition sample_zero_point : JoinedRow :=
  mkJoined (mkProduction 7 "S" 0%Q) None.

(** Two units with one negative reading each. *)
Definition negative_production : list ProductionRow :=
  [mkProduction 1 "A" (-60)%Q; mkProduction 1 "B" (-120)%Q].

Definition sample_production : list ProductionRow :=
  [mkProduction 1 "P" 0%Q; mkProduction 1 "B" 30%Q; mkProduction 1 "Z" 0%Q;
   mkProduction 2 "P" 120%Q; mkProduction 2 "B" 70%Q; mkProduction 2 "Z" 0%Q].

Definition sample_prices : list PriceRow :=
  [mkPrice 1 (Some 30%Q); mkPrice 2 (Some 20%Q)].

Definition unpriced_production : list ProductionRow :=
  [mkProduction 1 "W" 0%Q; mkProduction 2 "W" 100%Q].

Definition far_prices : list PriceRow := [mkPrice 5 (Some 9%Q)].

(** ** The loaders and the chart

    For the hourly buckets timestamps count seconds (polars counts
    microseconds; only the scale differs). *)

(** Lines 14-16 and 35-37: [str.split(" - ").list.get(0)], the text
    before the first separator, the whole text when there is none. *)
Fixpoint before_separator (sep s : string) : string :=
  match s with
  | EmptyString => EmptyString
  | String c rest =>
      if String.prefix sep s then EmptyString
      else String c (before_separator sep rest)
  end.

Definition mtu_start (mtu : string) : string := before_separator " - " mtu.

(** A row of [prices_df] after lines 13-19: the left end of the MTU
    range and the day-ahead price ("n/e" and blank are null). *)
Record PriceReading : Type := mkReading {
  reading_datetime : Z;
  reading_price : option Q
}.

Definition hour : Z := 3600.

(** The label of the [every="1h"] window that holds [t]: its left end. *)
Definition hour_start (t : Z) : Z := t - t mod hour.

Fixpoint ascending (l : list Z) : bool :=
  match l with
  | x :: (y :: _) as t => (x <=? y) && ascending t
  | _ => true
  end.

(** The mean price of the window labelled [b]. *)
Definition hourly_mean (rows : list PriceReading) (b : Z) : option Q :=
  mean (map reading_price
          (filter (fun r => hour_start (reading_datetime r) =? b) rows)).

(** Lines 22-27: [group_by_dynamic("datetime", every="1h")] with the
    mean of the price, then [sort("datetime")].  The index column has
    to be sorted, polars raises otherwise; windows without rows give no
    output row.  The price column is taken as read with a numeric
    type: a file without a single number is read as text, on which the
    mean raises, and is not represented. *)
Definition resample_hourly (rows : list PriceReading)
    : option (list PriceRow) :=
  if ascending (map reading_datetime rows) then
    Some
      (sort_by (fun a b => price_datetime a <=? price_datetime b)
         (map (fun b => mkPrice b (hourly_mean rows b))
            (unique Z.eqb
               (map (fun r => hour_start (reading_datetime r)) rows))))
  else None.

(** A row of [plant_production_df] after lines 31-40, before the
    [select]: "Generation (MW)" may be null. *)
Record RawProductionRow : Type := mkRaw {
  raw_datetime : Z;
  raw_unit : string;
  raw_generation : option Q
}.

Definition fill_null (d : Q) (o : option Q) : Q :=
  match o with
  | Some v => v
  | None => d
  end.

(** Lines 43-47 on the concatenated frame: the three columns selected,
    null generation filled with 0.  The frame is the one [pl.concat]
    returns, with a numeric generation column. *)
Definition select_production (rows : list RawProductionRow)
    : list ProductionRow :=
  map (fun r =>
         mkProduction (raw_datetime r) (raw_unit r)
           (fill_null 0 (raw_generation r)))
      rows.

(** Line 31 followed by lines 43-47, for files that agree on their
    column types ([pl.concat] raises when they do not, which the typed
    rows do not represent). *)
Definition read_production (files : list (list RawProductionRow))
    : list ProductionRow :=
  select_production (List.concat files).

(** The arguments of one call of [ax.barh] (lines 122-135): [left],
    [width], [height] and [label]. *)
Record Bar : Type := mkBar {
  bar_left : Z;
  bar_width : Z;
  bar_height : option Q;
  bar_label : string
}.

(** The arguments computed for each row of the frame. *)
Definition bars (df : list MeritRow) : list Bar :=
  map (fun row =>
         let x_start :=
           cumulated_generation row - max_generation (result row) in
         mkBar x_start (max_generation (result row))
           (marginal_price (result row)) (unit (result row)))
      df.

(** The loop of lines 122-135: [ax.barh] raises a TypeError on a null
    [height], so the bars are drawn only when every marginal price is
    present. *)
Definition draw_bars (df : list MeritRow) : option (list Bar) :=
  if forallb
       (fun row =>
          match marginal_price (result row) with
          | Some _ => true
          | None => false
          end)
       df
  then Some (bars df)
  else None.

(** Lines 108-135 on the list [results]: the frame built from an empty
    list has no column and [sort("marginal_price")] raises. *)
Definition chart (results : list MarginalResult) : option (list Bar) :=
  match results with
  | [] => None
  | _ :: _ => draw_bars (merit_order results)
  end.

(** ** More columns and predicates used in the statements *)

(** The price the table holds for timestamp [t], null when it holds
    none. *)
Definition price_at (prices : list PriceRow) (t : Z) : option Q :=
  match find (fun p => t =? price_datetime p) prices with
  | Some p => hourly_price p
  | None => None
  end.

(** [g] is the largest rounded generation among the rows of unit
    [name]. *)
Definition max_rounded_of (prod : list ProductionRow) (name : string)
    (g : Z) : Prop :=
  (exists row, In row prod /\ unit_name row = name /\
               round50 (generation_mw row) = g) /\
  (forall row, In row prod -> unit_name row = name ->
               round50 (generation_mw row) <= g).

(** The rows of unit [name]. *)
Definition rows_of (name : string) (df : list JoinedRow) : list JoinedRow :=
  filter (fun r => String.eqb (unit_name (production r)) name) df.

(** A text without the character "-". *)
Fixpoint no_dash (s : string) : Prop :=
  match s with
  | EmptyString => True
  | String c rest => c <> "-"%char /\ no_dash rest
  end.

(** Two iterations take the same decision: both raise, both skip, or
    both append a result for the same unit with the same generation. *)
Definition same_dispatch (o o' : Outcome) : Prop :=
  match o, o' with
  | Raise, Raise => True
  | Skip, Skip => True
  | Emit r, Emit r' =>
      unit r = unit r' /\ max_generation r = max_generation r'
  | _, _ => False
  end.

(** Ascending timestamps. *)
Definition datetime_le (a b : JoinedRow) : Prop :=
  datetime (production a) <= datetime (production b).

(** Bars laid side by side from [start]: each begins where the one
    before it ends. *)
Fixpoint tiles (start : Z) (bs : list Bar) : Prop :=
  match bs with
  | [] => True
  | b :: t => bar_left b = start /\ tiles (start + bar_width b) t
  end.

(** ** More sample inputs *)

Definition sample_file_1 : list RawProductionRow :=
  [mkRaw 1 "P" (Some 0%Q); mkRaw 2 "P" (Some 120%Q)].

Definition sample_file_2 : list RawProductionRow :=
  [mkRaw 1 "B" None; mkRaw 2 "B" (Some 70%Q)].

Definition sample_readings : list PriceReading :=
  [mkReading 0 (Some 10%Q); mkReading 900 None; mkReading 1800 (Some 20%Q);
   mkReading 3600 None; mkReading 7200 (Some 8%Q)].

Definition sample_null_file : list RawProductionRow :=
  [mkRaw 1 "N" None; mkRaw 2 "N" None; mkRaw 1 "P" (Some 120%Q)].

Definition sample_results : list MarginalResult :=
  [mkResult "P" 150 (Some (20 # 1)%Q); mkResult "B" 50 (Some 0%Q)].

(** * Rounding *)

Lemma round50_multiple (g : Q) : round50 g = 50 * Qceiling (g / 50).
Proof. unfold round50. lia. Qed.

Lemma scale50 (g : Q) : (g == g / 50 * 50)%Q.
Proof. field. Qed.

Lemma round50_ge (g : Q) : (g <= inject_Z (round50 g))%Q.
Proof.
  unfold round50. rewrite inject_Z_mult.
  rewrite (scale50 g) at 1.
  apply Qmult_le_compat_r; [apply Qle_ceiling | discriminate].
Qed.

Lemma round50_lt (g : Q) : (inject_Z (round50 g - 50) < g)%Q.
Proof.
  replace (round50 g - 50) with ((Qceiling (g / 50) - 1) * 50)
    by (unfold round50; lia).
  rewrite inject_Z_mult. rewrite (scale50 g) at 2.
  apply Qmult_lt_compat_r; [reflexivity | apply Qceiling_lt].
Qed.

Lemma round50_nonneg (g : Q) : (0 <= g)%Q -> 0 <= round50 g.
Proof.
  intros Hg. unfold round50.
  assert (H : (0 <= g / 50)%Q).
  { apply Qle_shift_div_l; [reflexivity | now rewrite Qmult_0_l]. }
  apply Qceiling_resp_le in H. change (Qceiling 0) with 0 in H. lia.
Qed.

(** C8: rounding sends a generation value to the least multiple of 50
    that is not below it (a multiple of 50, at or above the value, and
    less than 50 above it), and 0, 1, 49, 50, 51, 99, 100 go to
    0, 50, 50, 50, 100, 100, 100. *)
Theorem round50_ceiling_multiple :
  (forall g : Q,
      (exists k : Z, round50 g = 50 * k) /\
      (g <= inject_Z (round50 g))%Q /\
      (inject_Z (round50 g) - 50 < g)%Q) /\
  map round50 [0%Q; 1%Q; 49%Q; 50%Q; 51%Q; 99%Q; 100%Q]
    = [0; 50; 50; 50; 100; 100; 100] /\
  round50 3 = 50.
Proof.
  split; [| split; reflexivity].
  intros g. split; [| split].
  - exists (Qceiling (g / 50)). apply round50_multiple.
  - apply round50_ge.
  - generalize (round50_lt g). unfold Z.sub.
    rewrite inject_Z_plus. intros H. exact H.
Qed.

(** * Columns: distinct values, joins, extrema *)

Lemma flat_map_singleton {A B : Type} (F : A -> list B) (G : A -> B)
    (l : list A) :
  (forall a, In a l -> F a = [G a]) -> flat_map F l = map G l.
Proof.
  induction l as [| a t IH]; intros H; simpl; [reflexivity |].
  rewrite (H a) by now left. simpl. f_equal.
  apply IH. intros b Hb. apply H. now right.
Qed.

Section Unique.
Context {A : Type} (eqb : A -> A -> bool).
Hypothesis eqb_eq : forall x y, eqb x y = true <-> x = y.

Lemma eqb_refl_true (x : A) : eqb x x = true.
Proof. now apply eqb_eq. Qed.

Lemma unique_In (x : A) (l : list A) : In x (unique eqb l) <-> In x l.
Proof.
  induction l as [| a t IH]; simpl; [tauto |].
  rewrite filter_In, IH. split.
  - intros [H | [H _]]; auto.
  - intros [H | H]; auto.
    destruct (eqb a x) eqn:E.
    + left. now apply eqb_eq.
    + right. split; [assumption | reflexivity].
Qed.

Lemma unique_NoDup (l : list A) : NoDup (unique eqb l).
Proof.
  induction l as [| a t IH]; simpl; constructor.
  - rewrite filter_In. cbv beta. rewrite eqb_refl_true.
    simpl. intros [_ H]. discriminate.
  - now apply NoDup_filter.
Qed.

Lemma filter_key_NoDup (x : A) (l : list A) :
  NoDup l -> In x l -> filter (fun y => eqb x y) l = [x].
Proof.
  induction 1 as [| a t Hni Hnd IH]; simpl; [tauto |].
  intros [-> | Hin].
  - rewrite eqb_refl_true. f_equal.
    assert (H : forall y, In y t -> eqb x y = false).
    { intros y Hy. destruct (eqb x y) eqn:E; [| reflexivity].
      apply eqb_eq in E. now subst. }
    clear -H. induction t as [| b t IH]; simpl; [reflexivity |].
    rewrite (H b) by now left. apply IH. intros y Hy. apply H. now right.
  - destruct (eqb x a) eqn:E; [| now apply IH].
    apply eqb_eq in E. now subst.
Qed.

(** Joining on a key column against one row per distinct key pairs
    every left row with the row of its key. *)
Lemma left_join_keyed {L V : Type} (key : L -> A) (f : A -> V)
    (left : list L) (keys : list A) :
  NoDup keys -> (forall a, In a left -> In (key a) keys) ->
  left_join eqb key left (map (fun g => (g, f g)) keys)
    = map (fun a => (a, Some (f (key a)))) left.
Proof.
  intros Hnd Hin. unfold left_join.
  apply flat_map_singleton. intros a Ha.
  rewrite filter_map_swap.
  rewrite (filter_ext _ (fun y => eqb (key a) y)) by reflexivity.
  rewrite (filter_key_NoDup (key a) keys Hnd) by now apply Hin.
  reflexivity.
Qed.
End Unique.

Lemma nat_eqb_eq (x y : nat) : Nat.eqb x y = true <-> x = y.
Proof. apply Nat.eqb_eq. Qed.

Lemma string_eqb_eq (x y : string) : String.eqb x y = true <-> x = y.
Proof. apply String.eqb_eq. Qed.

Lemma fold_max_spec (t : list Z) (x : Z) :
  In (fold_left Z.max t x) (x :: t) /\
  forall y, In y (x :: t) -> y <= fold_left Z.max t x.
Proof.
  revert x. induction t as [| a t IH]; intros x; simpl.
  - split; [now left | intros y [-> | []]; lia].
  - destruct (IH (Z.max x a)) as [Hin Hub]. split.
    + destruct Hin as [Hm | Hm]; [| right; right; exact Hm].
      destruct (Z.max_spec x a) as [[_ E] | [_ E]]; rewrite E in *; auto.
    + intros y [-> | [-> | Hy]].
      * specialize (Hub (Z.max y a) (or_introl eq_refl)). lia.
      * specialize (Hub (Z.max x y) (or_introl eq_refl)). lia.
      * apply Hub. now right.
Qed.

Lemma fold_min_spec (t : list Z) (x : Z) :
  In (fold_left Z.min t x) (x :: t) /\
  forall y, In y (x :: t) -> fold_left Z.min t x <= y.
Proof.
  revert x. induction t as [| a t IH]; intros x; simpl.
  - split; [now left | intros y [-> | []]; lia].
  - destruct (IH (Z.min x a)) as [Hin Hlb]. split.
    + destruct Hin as [Hm | Hm]; [| right; right; exact Hm].
      destruct (Z.min_spec x a) as [[_ E] | [_ E]]; rewrite E in *; auto.
    + intros y [-> | [-> | Hy]].
      * specialize (Hlb (Z.min y a) (or_introl eq_refl)). lia.
      * specialize (Hlb (Z.min x y) (or_introl eq_refl)). lia.
      * apply Hlb. now right.
Qed.

Lemma series_max_spec (l : list Z) (m : Z) :
  series_max l = Some m -> In m l /\ forall y, In y l -> y <= m.
Proof.
  destruct l as [| x t]; simpl; [discriminate |].
  intros [= <-]. apply fold_max_spec.
Qed.

Lemma series_min_spec (l : list Z) (m : Z) :
  series_min l = Some m -> In m l /\ forall y, In y l -> m <= y.
Proof.
  destruct l as [| x t]; simpl; [discriminate |].
  intros [= <-]. apply fold_min_spec.
Qed.

Lemma series_max_some (l : list Z) : l <> [] -> exists m, series_max l = Some m.
Proof. destruct l; [congruence | simpl; eauto]. Qed.

Lemma series_min_some (l : list Z) : l <> [] -> exists m, series_min l = Some m.
Proof. destruct l; [congruence | simpl; eauto]. Qed.

(** A non-empty column whose cells all equal [m] has maximum [m]. *)
Lemma series_max_const (l : list Z) (m : Z) :
  l <> [] -> (forall y, In y l -> y = m) -> series_max l = Some m.
Proof.
  intros Hne Hall. destruct (series_max_some l Hne) as [k Hk].
  rewrite Hk. f_equal. apply Hall. now apply series_max_spec.
Qed.

(** * The loop body, branch by branch *)

Lemma map_fst_combine {A B : Type} (l : list A) (l' : list B) :
  List.length l = List.length l' -> map fst (combine l l') = l.
Proof.
  revert l'. induction l as [| a t IH]; intros [| b t'];
    simpl; try discriminate; try reflexivity.
  intros [= H]. f_equal. now apply IH.
Qed.

Lemma length_cum_sum_from (acc : nat) (l : list bool) :
  List.length (cum_sum_from acc l) = List.length l.
Proof.
  revert acc. induction l as [| b t IH]; intros acc; simpl; [reflexivity |].
  now rewrite IH.
Qed.

Lemma length_group_ids (gen : list Z) :
  List.length (group_ids gen) = List.length gen.
Proof.
  unfold group_ids, cum_sum_bool. now rewrite length_cum_sum_from, length_map.
Qed.

Lemma generation_unit_rows (df : list JoinedRow) :
  map generation (unit_rows df) = rounded df.
Proof.
  unfold unit_rows, with_group_id. rewrite map_map. simpl.
  rewrite <- (map_map fst fst), map_fst_combine, map_fst_combine;
    [reflexivity | |].
  - unfold rounded. now rewrite !length_map.
  - rewrite length_combine, length_group_ids. unfold rounded.
    rewrite !length_map. lia.
Qed.

(** The join of line 98 gives each row the average of its own group. *)
Lemma with_avg_price_eq (rows : list UnitRow) :
  with_avg_price rows = map (fun r => (r, avg_price rows (group_id r))) rows.
Proof.
  unfold with_avg_price, group_avg.
  rewrite (left_join_keyed Nat.eqb nat_eqb_eq).
  - now rewrite map_map.
  - apply unique_NoDup, nat_eqb_eq.
  - intros a Ha. apply unique_In; [apply nat_eqb_eq | now apply in_map].
Qed.

Lemma estimate_unit_empty (name : string) : estimate_unit name [] = Raise.
Proof. reflexivity. Qed.

Lemma estimate_unit_skip (name : string) (df : list JoinedRow) :
  series_max (rounded df) = Some 0 -> estimate_unit name df = Skip.
Proof.
  intros Hmax. unfold estimate_unit. rewrite Hmax.
  destruct (series_min (rounded df)) eqn:Hmin; [reflexivity |].
  destruct (rounded df); discriminate.
Qed.

Lemma estimate_unit_baseload (name : string) (df : list JoinedRow)
    (mx mn : Z) :
  series_max (rounded df) = Some mx -> series_min (rounded df) = Some mn ->
  mx <> 0 -> 0 < mn ->
  estimate_unit name df = Emit (mkResult name mx (Some 0%Q)).
Proof.
  intros Hmax Hmin Hmx Hmn. unfold estimate_unit. rewrite Hmax, Hmin.
  destruct (mx =? 0) eqn:E; [apply Z.eqb_eq in E; contradiction |].
  now replace (0 <? mn) with true by (symmetry; now apply Z.ltb_lt).
Qed.

Lemma estimate_unit_intermittent (name : string) (df : list JoinedRow)
    (mx mn : Z) :
  series_max (rounded df) = Some mx -> series_min (rounded df) = Some mn ->
  mx <> 0 -> mn <= 0 ->
  estimate_unit name df
    = Emit (mkResult name mx (Qmin_list (max_rows_avg (unit_rows df) mx))).
Proof.
  intros Hmax Hmin Hmx Hmn. unfold estimate_unit. rewrite Hmax, Hmin.
  destruct (mx =? 0) eqn:E; [apply Z.eqb_eq in E; contradiction |].
  replace (0 <? mn) with false by (symmetry; apply Z.ltb_ge; lia).
  fold (unit_rows df). rewrite with_avg_price_eq, filter_map_swap.
  cbn [fst]. rewrite !map_map. cbn [fst snd].
  fold (max_rows_avg (unit_rows df) mx).
  set (kept := filter (fun r => generation r =? mx) (unit_rows df)).
  change (map (fun x => generation x) kept) with (map generation kept).
  rewrite (series_max_const (map generation kept) mx); [reflexivity | |].
  - destruct (series_max_spec _ _ Hmax) as [Hin _].
    rewrite <- generation_unit_rows in Hin.
    apply in_map_iff in Hin. destruct Hin as [r [Hr Hin]].
    assert (Hk : In r kept).
    { apply filter_In. split; [exact Hin | now apply Z.eqb_eq]. }
    destruct kept; [contradiction | discriminate].
  - intros y Hy. apply in_map_iff in Hy. destruct Hy as [r [<- Hr]].
    apply filter_In in Hr. now apply Z.eqb_eq.
Qed.

(** * The grouping of the third branch *)

Lemma cum_sum_from_app (acc : nat) (l1 l2 : list bool) :
  cum_sum_from acc (l1 ++ l2)
    = cum_sum_from acc l1
        ++ cum_sum_from (acc + count_occ bool_dec l1 true) l2.
Proof.
  revert acc. induction l1 as [| b t IH]; intros acc; simpl.
  - now rewrite Nat.add_0_r.
  - rewrite IH. destruct b; simpl; do 3 f_equal; lia.
Qed.

(** What [group_id] does on two consecutive rows: the later row opens a
    new group exactly when its own rounded generation is zero, whatever
    the row before it was. *)
Lemma group_ids_adjacent (pre : list Z) (a b : Z) (post : list Z) :
  exists ids c rest,
    List.length ids = List.length pre /\
    group_ids (pre ++ a :: b :: post)
      = ids ++ c :: (if is_zero b then S c else c) :: rest.
Proof.
  unfold group_ids, cum_sum_bool. rewrite map_app, cum_sum_from_app. simpl.
  do 3 eexists. split; [| reflexivity].
  now rewrite length_cum_sum_from, length_map.
Qed.

(** C2 (fails on the code): on the rounded series 0, 0, 100, 100, 0 the
    [group_id] column is 1, 2, 2, 2, 3 while the maximal runs are
    0, 0, 1, 1, 2: the two zero rows of the first run fall into two
    groups and the second zero row shares its group with the non-zero
    run after it, so the groups are not the maximal runs. *)
Theorem group_ids_are_not_maximal_runs :
  group_ids [0; 0; 100; 100; 0] = [1; 2; 2; 2; 3]%nat /\
  spec_run_ids [0; 0; 100; 100; 0] = [0; 0; 1; 1; 2]%nat /\
  ~ same_partition (group_ids [0; 0; 100; 100; 0])
                   (spec_run_ids [0; 0; 100; 100; 0]).
Proof.
  split; [reflexivity | split; [reflexivity |]].
  intros H.
  specialize (H 0%nat 1%nat 1%nat 2%nat 0%nat 0%nat
                eq_refl eq_refl eq_refl eq_refl).
  destruct H as [_ H]. specialize (H eq_refl). discriminate.
Qed.

(** * The estimate against the runs of the specification *)

(** C1 (fails on the code): for rounded generation 0, 0, 100, 100, 0
    and prices 10, 12, 50, 55, 8 the estimator returns generation 100
    and marginal price 39 (the mean of 12, 50 and 55), not 52.5; the
    runs of the specification would give 52.5. *)
Theorem example_unit_A_estimate :
  rounded unit_A = [0; 0; 100; 100; 0] /\
  map day_ahead_price unit_A
    = [Some 10%Q; Some 12%Q; Some 50%Q; Some 55%Q; Some 8%Q] /\
  exists p q,
    estimate_unit "A" unit_A = Emit (mkResult "A" 100 (Some p)) /\
    (p == 39)%Q /\ ~ (p == 105 # 2)%Q /\
    spec_marginal_price (rounded unit_A) (map day_ahead_price unit_A)
      = Some q /\
    (q == 105 # 2)%Q.
Proof.
  split; [reflexivity | split; [reflexivity |]].
  exists (117 # 3)%Q, (105 # 2)%Q.
  repeat split; try reflexivity.
  unfold Qeq. simpl. lia.
Qed.

(** C3 (fails on the code): for rounded generation 0, 100, 0, 100 and
    prices 10, 50, 20, 40 the runs holding the maximum 100 are the two
    one-row runs with averages 50 and 40, whose minimum is 40; the
    estimator returns 30, each 100 row being averaged together with the
    zero row before it.  The returned generation is the maximum, 100. *)
Theorem estimate_is_not_minimum_over_runs :
  series_max (rounded unit_B) = Some 100 /\
  exists p q,
    estimate_unit "B" unit_B = Emit (mkResult "B" 100 (Some p)) /\
    spec_marginal_price (rounded unit_B) (map day_ahead_price unit_B)
      = Some q /\
    (p == 30)%Q /\ (q == 40)%Q /\ ~ (p == q)%Q.
Proof.
  split; [reflexivity |].
  exists (60 # 2)%Q, 40%Q.
  repeat split; try reflexivity.
  unfold Qeq. simpl. lia.
Qed.

(** * Always dispatched units and single data points *)

Lemma In_rounded (df : list JoinedRow) (g : Z) :
  In g (rounded df) <->
  exists r, In r df /\ g = round50 (generation_mw (production r)).
Proof.
  unfold rounded. rewrite in_map_iff. split; intros [r [H1 H2]]; eauto.
Qed.

(** C4 as stated fails: with a negative reading the rounded generation
    can be non-zero at every row and yet the test of line 73 (minimum
    above 0) is not met.  Readings -60 and 100 round to -50 and 100;
    the unit goes through the third branch and gets the mean price of
    its rows, not 0. *)
Lemma negative_reading_is_not_baseload :
  ~ (forall (name : string) (df : list JoinedRow),
        df <> [] ->
        (forall g, In g (rounded df) -> g <> 0) ->
        exists mx,
          estimate_unit name df = Emit (mkResult name mx (Some 0%Q))).
Proof.
  intros H.
  assert (H1 : sample_negative <> []) by discriminate.
  assert (H2 : forall g, In g (rounded sample_negative) -> g <> 0).
  { intros g [<- | [<- | []]]; discriminate. }
  destruct (H "N"%string sample_negative H1 H2) as [mx Hmx].
  vm_compute in Hmx. discriminate Hmx.
Qed.

(** C4, amended: with non-negative generation readings, a unit whose
    rounded generation is non-zero at every row gets marginal price 0
    and, as generation, the largest rounded generation of its rows (a
    value of the rounded column that no other value exceeds). *)
Theorem always_dispatched_unit (name : string) (df : list JoinedRow) :
  df <> [] ->
  (forall r, In r df -> (0 <= generation_mw (production r))%Q) ->
  (forall g, In g (rounded df) -> g <> 0) ->
  exists mx,
    In mx (rounded df) /\
    (forall g, In g (rounded df) -> g <= mx) /\
    estimate_unit name df = Emit (mkResult name mx (Some 0%Q)).
Proof.
  intros Hne Hpos Hnz.
  assert (Hne' : rounded df <> []) by (destruct df; [congruence | discriminate]).
  destruct (series_max_some _ Hne') as [mx Hmax].
  destruct (series_min_some _ Hne') as [mn Hmin].
  destruct (series_max_spec _ _ Hmax) as [Hinmx Hub].
  destruct (series_min_spec _ _ Hmin) as [Hin _].
  assert (Hmn : 0 < mn).
  { pose proof (Hnz mn Hin) as Hz.
    apply In_rounded in Hin. destruct Hin as [r [Hr ->]].
    pose proof (round50_nonneg _ (Hpos r Hr)). lia. }
  exists mx. split; [exact Hinmx | split; [exact Hub |]].
  apply (estimate_unit_baseload name df mx mn);
    [exact Hmax | exact Hmin | now apply Hnz | exact Hmn].
Qed.

Lemma always_dispatched_unit_witness :
  sample_baseload <> [] /\
  (forall r, In r sample_baseload ->
             (0 <= generation_mw (production r))%Q) /\
  (forall g, In g (rounded sample_baseload) -> g <> 0) /\
  exists mx,
    In mx (rounded sample_baseload) /\
    (forall g, In g (rounded sample_baseload) -> g <= mx) /\
    estimate_unit "X" sample_baseload = Emit (mkResult "X" mx (Some 0%Q)).
Proof.
  set (df := sample_baseload).
  assert (H1 : df <> []) by discriminate.
  assert (H2 : forall r, In r df -> (0 <= generation_mw (production r))%Q).
  { intros r [<- | [<- | []]]; simpl; unfold Qle; simpl; lia. }
  assert (H3 : forall g, In g (rounded df) -> g <> 0).
  { intros g [<- | [<- | []]]; discriminate. }
  split; [exact H1 | split; [exact H2 | split; [exact H3 |]]].
  exact (always_dispatched_unit "X" df H1 H2 H3).
Defined.

(** C5 as stated fails: a single data point whose rounded generation is
    zero is dropped by the guard of line 69, before the baseload
    branch. *)
Lemma single_zero_point_is_dropped :
  ~ (forall (name : string) (r : JoinedRow),
        exists g, estimate_unit name [r] = Emit (mkResult name g (Some 0%Q))).
Proof.
  intros H.
  destruct (H "A"%string (mkJoined (mkProduction 0 "A" 0%Q) (Some 10%Q)))
    as [g Hg].
  discriminate Hg.
Qed.

(** C5, amended: a unit with exactly one data point has equal minimum
    and maximum rounded generation; it is handled as baseload (marginal
    price 0, that generation) when its rounded generation is positive,
    and dropped when it is zero. *)
Theorem single_point_unit (name : string) (r : JoinedRow) :
  series_min (rounded [r]) = series_max (rounded [r]) /\
  (0 < round50 (generation_mw (production r)) ->
   estimate_unit name [r]
     = Emit (mkResult name (round50 (generation_mw (production r)))
               (Some 0%Q))) /\
  (round50 (generation_mw (production r)) = 0 ->
   estimate_unit name [r] = Skip).
Proof.
  split; [reflexivity | split]; intros H.
  - apply (estimate_unit_baseload name [r]
             (round50 (generation_mw (production r)))
             (round50 (generation_mw (production r))) eq_refl eq_refl); lia.
  - apply estimate_unit_skip. simpl. now rewrite H.
Qed.

Lemma single_point_unit_witness :
  0 < round50 (generation_mw (production sample_point)) /\
  estimate_unit "S" [sample_point] = Emit (mkResult "S" 50 (Some 0%Q)) /\
  round50 (generation_mw (production sample_zero_point)) = 0 /\
  estimate_unit "S" [sample_zero_point] = Skip.
Proof.
  set (r := sample_point). set (z := sample_zero_point).
  assert (Hr : 0 < round50 (generation_mw (production r))) by reflexivity.
  assert (Hz : round50 (generation_mw (production z)) = 0) by reflexivity.
  split; [exact Hr | split; [| split; [exact Hz |]]].
  - exact (proj1 (proj2 (single_point_unit "S" r)) Hr).
  - exact (proj2 (proj2 (single_point_unit "S" z)) Hz).
Defined.

(** * Missing prices *)

Lemma drop_nulls_nil {V : Type} (l : list (option V)) :
  drop_nulls l = [] <-> forall o, In o l -> o = None.
Proof.
  unfold drop_nulls. induction l as [| [v |] t IH]; simpl.
  - split; [intros _ o [] | reflexivity].
  - split; [discriminate |]. intros H.
    specialize (H (Some v) (or_introl eq_refl)). discriminate.
  - rewrite IH. split.
    + intros H o [<- | Ho]; auto.
    + intros H o Ho. apply H. now right.
Qed.

Lemma mean_None (l : list (option Q)) :
  mean l = None <-> forall o, In o l -> o = None.
Proof.
  rewrite <- drop_nulls_nil. unfold mean.
  destruct (drop_nulls l); split; congruence.
Qed.

Lemma Qmin_list_None (l : list (option Q)) :
  Qmin_list l = None <-> forall o, In o l -> o = None.
Proof.
  rewrite <- drop_nulls_nil. unfold Qmin_list.
  destruct (drop_nulls l); split; congruence.
Qed.

Lemma in_left_join {A K V : Type} (eqb : K -> K -> bool) (key : A -> K)
    (left : list A) (right : list (K * V)) (a : A) (o : option V) :
  In (a, o) (left_join eqb key left right) <->
  In a left /\
  ((o = None /\ filter (fun kv => eqb (key a) (fst kv)) right = []) \/
   exists kv, In kv (filter (fun kv => eqb (key a) (fst kv)) right) /\
              o = Some (snd kv)).
Proof.
  unfold left_join. rewrite in_flat_map. split.
  - intros [b [Hb H]].
    destruct (filter (fun kv => eqb (key b) (fst kv)) right) as [| kv ms] eqn:E.
    + destruct H as [[= <- <-] | []]. rewrite E. auto.
    + apply in_map_iff in H. destruct H as [kv' [[= <- <-] Hkv]].
      rewrite E. eauto.
  - intros [Ha H]. exists a. split; [exact Ha |].
    destruct H as [[-> E] | [kv [Hkv ->]]].
    + rewrite E. now left.
    + destruct (filter (fun kv => eqb (key a) (fst kv)) right) as [| k ms];
        [contradiction |].
      apply in_map_iff. eauto.
Qed.

(** The join of lines 50-54 keeps the production rows: every joined row
    carries a production row, and every production row is carried. *)
Lemma join_prices_production (prod : list ProductionRow)
    (prices : list PriceRow) (j : JoinedRow) :
  In j (join_prices prod prices) -> In (production j) prod.
Proof.
  unfold join_prices. rewrite in_map_iff. intros [[a o] [<- H]].
  apply in_left_join in H. simpl. tauto.
Qed.

Lemma join_prices_keeps (prod : list ProductionRow) (prices : list PriceRow)
    (r : ProductionRow) :
  In r prod -> exists j, In j (join_prices prod prices) /\ production j = r.
Proof.
  intros Hr. unfold join_prices.
  set (right := map (fun p => (price_datetime p, hourly_price p)) prices).
  destruct (filter (fun kv => Z.eqb (datetime r) (fst kv)) right)
    as [| kv ms] eqn:E.
  - exists (mkJoined r None). split; [| reflexivity].
    apply in_map_iff. exists (r, None). split; [reflexivity |].
    apply in_left_join. split; [exact Hr | now left].
  - exists (mkJoined r (snd kv)). split; [| reflexivity].
    apply in_map_iff. exists (r, Some (snd kv)). split; [reflexivity |].
    apply in_left_join. split; [exact Hr | right].
    exists kv. rewrite E. split; [now left | reflexivity].
Qed.

(** A production row whose timestamp has no price row gets a null
    price. *)
Lemma join_prices_miss (prod : list ProductionRow) (prices : list PriceRow)
    (j : JoinedRow) :
  In j (join_prices prod prices) ->
  (forall p, In p prices -> price_datetime p <> datetime (production j)) ->
  day_ahead_price j = None.
Proof.
  unfold join_prices. rewrite in_map_iff. intros [[a o] [<- H]] Hmiss.
  apply in_left_join in H. destruct H as [_ [[-> _] | [kv [Hkv _]]]];
    [reflexivity |].
  apply filter_In in Hkv. destruct Hkv as [Hkv E].
  apply in_map_iff in Hkv. destruct Hkv as [p [<- Hp]].
  simpl in *. apply Z.eqb_eq in E. symmetry in E. now apply Hmiss in E.
Qed.

Lemma In_max_rows_avg (rows : list UnitRow) (mx : Z) (o : option Q) :
  In o (max_rows_avg rows mx) <->
  exists r, In r rows /\ generation r = mx /\
            o = avg_price rows (group_id r).
Proof.
  unfold max_rows_avg. rewrite in_map_iff. split.
  - intros [r [<- Hr]]. apply filter_In in Hr. destruct Hr as [Hr E].
    apply Z.eqb_eq in E. eauto.
  - intros [r [Hr [E ->]]]. exists r. split; [reflexivity |].
    apply filter_In. split; [exact Hr | now apply Z.eqb_eq].
Qed.

(** C9 as stated fails: a group that holds a row at the maximum and
    whose prices are all missing has a null average, yet the marginal
    price is not null when another group at the maximum has an average:
    the minimum of line 105 skips nulls.  Here generation is
    0, 100, 0, 100 with prices null, null, 5, 7 and the result is 6. *)
Lemma null_average_is_skipped_by_min :
  ~ (forall (name : string) (df : list JoinedRow) (r : UnitRow)
            (res : MarginalResult),
        In r (unit_rows df) ->
        series_max (rounded df) = Some (generation r) ->
        avg_price (unit_rows df) (group_id r) = None ->
        estimate_unit name df = Emit res ->
        marginal_price res = None).
Proof.
  intros H.
  specialize (H "C"%string unit_C (mkUnitRow 100 None 1)
                (mkResult "C" 100 (Some (12 # 2)%Q))).
  simpl in H.
  discriminate H; auto.
Qed.

Lemma map_snd_fst_combine3 {A B C : Type} (a : list A) (b : list B)
    (c : list C) :
  List.length a = List.length b -> List.length b = List.length c ->
  map (fun x => snd (fst x)) (combine (combine a b) c) = b.
Proof.
  revert b c. induction a as [| x a IH]; intros [| y b] [| z c];
    simpl; try discriminate; try reflexivity.
  intros [= H1] [= H2]. f_equal. now apply IH.
Qed.

Lemma price_unit_rows (df : list JoinedRow) :
  map price (unit_rows df) = map day_ahead_price df.
Proof.
  unfold unit_rows, with_group_id. rewrite map_map. simpl.
  apply map_snd_fst_combine3.
  - unfold rounded. now rewrite !length_map.
  - rewrite length_group_ids. unfold rounded. now rewrite !length_map.
Qed.

Lemma avg_price_all_missing (rows : list UnitRow) (g : nat) :
  (forall o, In o (map price rows) -> o = None) -> avg_price rows g = None.
Proof.
  intros H. unfold avg_price. apply mean_None. intros o Ho. apply H.
  apply in_map_iff in Ho. destruct Ho as [r [<- Hr]].
  apply filter_In in Hr. apply in_map. tauto.
Qed.

Lemma In_drop_nulls {V : Type} (l : list (option V)) (v : V) :
  In v (drop_nulls l) <-> In (Some v) l.
Proof.
  unfold drop_nulls. rewrite in_flat_map. split.
  - intros [[w |] [Ho Hv]]; [| contradiction].
    destruct Hv as [<- | []]. exact Ho.
  - intros H. exists (Some v). split; [exact H | now left].
Qed.

Lemma fold_Qmin_In (ps : list Q) (p : Q) :
  In (fold_left (fun m q => if Qle_bool m q then m else q) ps p) (p :: ps).
Proof.
  revert p. induction ps as [| q t IH]; intros p; [now left |].
  cbn [fold_left].
  destruct (IH (if Qle_bool p q then p else q)) as [H | H].
  - destruct (Qle_bool p q); [left | right; left]; exact H.
  - right. right. exact H.
Qed.

Lemma Qmin_list_In (l : list (option Q)) (p : Q) :
  Qmin_list l = Some p -> In (Some p) l.
Proof.
  unfold Qmin_list. destruct (drop_nulls l) as [| x t] eqn:E; [discriminate |].
  intros [= <-]. apply In_drop_nulls. rewrite E. apply fold_Qmin_In.
Qed.

Lemma drop_nulls_app {V : Type} (l1 l2 : list (option V)) :
  drop_nulls (l1 ++ l2) = drop_nulls l1 ++ drop_nulls l2.
Proof. unfold drop_nulls. apply flat_map_app. Qed.

Lemma drop_nulls_present {V : Type} (l : list V) :
  drop_nulls (map Some l) = l.
Proof.
  induction l as [| x t IH]; [reflexivity |].
  cbn [map]. change (drop_nulls (Some x :: map Some t))
    with (x :: drop_nulls (map Some t)). now rewrite IH.
Qed.

Lemma mean_skips_null (l1 l2 : list (option Q)) :
  mean (l1 ++ None :: l2) = mean (l1 ++ l2).
Proof.
  unfold mean. rewrite !drop_nulls_app.
  change (drop_nulls (None :: l2)) with (drop_nulls l2). reflexivity.
Qed.

Lemma mean_present (x : Q) (xs : list Q) :
  mean (map Some (x :: xs))
    = Some (Qsum (x :: xs) / inject_Z (Z.of_nat (List.length (x :: xs))))%Q.
Proof. unfold mean. now rewrite drop_nulls_present. Qed.

Lemma fold_Qmin_le (ps : list Q) (p : Q) :
  let m := fold_left (fun m q => if Qle_bool m q then m else q) ps p in
  (m <= p)%Q /\ forall q, In q ps -> (m <= q)%Q.
Proof.
  revert p. induction ps as [| q t IH]; intros p; cbn [fold_left].
  - split; [apply Qle_refl | intros q []].
  - destruct (IH (if Qle_bool p q then p else q)) as [H1 H2].
    assert (Hp : ((if Qle_bool p q then p else q) <= p)%Q /\
                 ((if Qle_bool p q then p else q) <= q)%Q).
    { destruct (Qle_bool p q) eqn:E.
      - split; [apply Qle_refl | now apply Qle_bool_iff].
      - split; [| apply Qle_refl].
        destruct (Qlt_le_dec q p) as [Hlt | Hle]; [now apply Qlt_le_weak |].
        apply Qle_bool_iff in Hle. congruence. }
    destruct Hp as [Hp Hq]. split.
    + eapply Qle_trans; [exact H1 | exact Hp].
    + intros x [<- | Hx]; [| now apply H2].
      eapply Qle_trans; [exact H1 | exact Hq].
Qed.

Lemma Qmin_list_le (l : list (option Q)) (p q : Q) :
  Qmin_list l = Some p -> In (Some q) l -> (p <= q)%Q.
Proof.
  unfold Qmin_list. destruct (drop_nulls l) as [| x t] eqn:E; [discriminate |].
  intros [= <-] Hq. apply In_drop_nulls in Hq. rewrite E in Hq.
  destruct (fold_Qmin_le t x) as [H1 H2].
  destruct Hq as [<- | Hq]; [exact H1 | now apply H2].
Qed.

Lemma avg_price_None (rows : list UnitRow) (g : nat) :
  avg_price rows g = None <->
  forall r, In r rows -> group_id r = g -> price r = None.
Proof.
  unfold avg_price. rewrite mean_None. split.
  - intros H r Hr Hg. apply H. apply in_map. apply filter_In.
    split; [exact Hr | now apply Nat.eqb_eq].
  - intros H o Ho. apply in_map_iff in Ho. destruct Ho as [r [<- Hr]].
    apply filter_In in Hr. destruct Hr as [Hr Hg].
    apply Nat.eqb_eq in Hg. now apply H.
Qed.

(** C9, amended: a production row without a price row at its timestamp
    gets a null price; the mean of a group leaves null prices out
    wherever they stand (a null cell changes neither the sum nor the
    count, so it is never counted as zero; the mean of prices that are
    all present is their sum over their number; the mean is null
    exactly when every price is null), and the average of a group is
    null exactly when every row of the group has a null price; for an
    intermittently dispatched unit the marginal price is null exactly
    when every group holding a row at the maximum rounded generation
    has a null average, which is the case when none of the unit's rows
    has a price; otherwise it is the least of the non-null averages of
    those groups. *)
Theorem missing_prices_in_marginal_price :
  (forall prod prices j,
      In j (join_prices prod prices) ->
      (forall p, In p prices -> price_datetime p <> datetime (production j)) ->
      day_ahead_price j = None) /\
  (forall l1 l2, mean (l1 ++ None :: l2) = mean (l1 ++ l2)) /\
  (forall x xs,
      mean (map Some (x :: xs))
        = Some (Qsum (x :: xs)
                  / inject_Z (Z.of_nat (List.length (x :: xs))))%Q) /\
  (forall l, mean l = None <-> forall o, In o l -> o = None) /\
  (forall rows g,
      avg_price rows g = None <->
      forall r, In r rows -> group_id r = g -> price r = None) /\
  (forall name df mx mn,
      series_max (rounded df) = Some mx ->
      series_min (rounded df) = Some mn ->
      mx <> 0 -> mn <= 0 ->
      exists p,
        estimate_unit name df = Emit (mkResult name mx p) /\
        (p = None <->
         forall r, In r (unit_rows df) -> generation r = mx ->
                   avg_price (unit_rows df) (group_id r) = None) /\
        (forall q, p = Some q ->
           (exists r, In r (unit_rows df) /\ generation r = mx /\
                      avg_price (unit_rows df) (group_id r) = Some q) /\
           (forall r q', In r (unit_rows df) -> generation r = mx ->
                         avg_price (unit_rows df) (group_id r) = Some q' ->
                         (q <= q')%Q)) /\
        ((forall r, In r df -> day_ahead_price r = None) -> p = None)).
Proof.
  split; [exact join_prices_miss |].
  split; [exact mean_skips_null |].
  split; [exact mean_present |].
  split; [exact mean_None |].
  split; [exact avg_price_None |].
  intros name df mx mn Hmax Hmin Hmx Hmn.
  exists (Qmin_list (max_rows_avg (unit_rows df) mx)).
  split; [now apply (estimate_unit_intermittent name df mx mn) |].
  assert (Hiff : Qmin_list (max_rows_avg (unit_rows df) mx) = None <->
                 forall r, In r (unit_rows df) -> generation r = mx ->
                           avg_price (unit_rows df) (group_id r) = None).
  { rewrite Qmin_list_None. split.
    - intros H r Hr E. apply H. apply In_max_rows_avg. eauto.
    - intros H o Ho. apply In_max_rows_avg in Ho.
      destruct Ho as [r [Hr [E ->]]]. now apply H. }
  split; [exact Hiff | split].
  - intros q Hq. split.
    + apply Qmin_list_In in Hq. apply In_max_rows_avg in Hq.
      destruct Hq as [r [Hr [E Ha]]]. exists r. auto.
    + intros r q' Hr E Ha. apply (Qmin_list_le _ _ _ Hq).
      apply In_max_rows_avg. exists r. auto.
  - intros Hnone. apply Hiff. intros r _ _. apply avg_price_all_missing.
    rewrite price_unit_rows. intros o Ho.
    apply in_map_iff in Ho. destruct Ho as [j [<- Hj]]. now apply Hnone.
Qed.

Lemma missing_prices_in_marginal_price_witness :
  (forall j, In j (join_prices unpriced_production far_prices) ->
     forall p, In p far_prices ->
               price_datetime p <> datetime (production j)) /\
  (forall j, In j (join_prices unpriced_production far_prices) ->
             day_ahead_price j = None) /\
  series_max (rounded (join_prices unpriced_production far_prices))
    = Some 100 /\
  series_min (rounded (join_prices unpriced_production far_prices))
    = Some 0 /\
  100 <> 0 /\ 0 <= 0 /\
  estimate_unit "W" (join_prices unpriced_production far_prices)
    = Emit (mkResult "W" 100 None).
Proof.
  set (prod := unpriced_production). set (prices := far_prices).
  set (df := join_prices prod prices).
  assert (H1 : forall j, In j df -> forall p, In p prices ->
                 price_datetime p <> datetime (production j)).
  { intros j [<- | [<- | []]] p [<- | []]; discriminate. }
  assert (H2 : forall j, In j df -> day_ahead_price j = None).
  { intros j Hj.
    exact (proj1 missing_prices_in_marginal_price prod prices j Hj (H1 j Hj)). }
  assert (H3 : series_max (rounded df) = Some 100) by reflexivity.
  assert (H4 : series_min (rounded df) = Some 0) by reflexivity.
  assert (H5 : 100 <> 0) by discriminate.
  assert (H6 : 0 <= 0) by discriminate.
  repeat (split; [assumption |]).
  destruct (proj2 (proj2 (proj2 (proj2 (proj2
              missing_prices_in_marginal_price))))
              "W"%string df 100 0 H3 H4 H5 H6) as [p [Hp [_ [_ Hn]]]].
  rewrite Hp. now rewrite (Hn H2).
Defined.

(** * Sorting *)

Lemma insert_by_perm {A : Type} (leb : A -> A -> bool) (x : A) (l : list A) :
  Permutation (insert_by leb x l) (x :: l).
Proof.
  induction l as [| y t IH]; simpl; [reflexivity |].
  destruct (leb x y); [reflexivity |].
  rewrite IH. apply perm_swap.
Qed.

Lemma sort_by_perm {A : Type} (leb : A -> A -> bool) (l : list A) :
  Permutation (sort_by leb l) l.
Proof.
  induction l as [| x t IH]; simpl; [reflexivity |].
  rewrite insert_by_perm. now constructor.
Qed.

Section SortSorted.
Context {A : Type} (leb : A -> A -> bool).
Hypothesis leb_total : forall x y, leb x y = false -> leb y x = true.

Lemma insert_by_sorted (x : A) (l : list A) :
  Sorted (le_of leb) l -> Sorted (le_of leb) (insert_by leb x l).
Proof.
  induction 1 as [| y t Hs IH Hd]; simpl.
  - repeat constructor.
  - destruct (leb x y) eqn:E.
    + constructor; [now constructor | now constructor].
    + constructor; [exact IH |].
      destruct t as [| z t]; simpl.
      * constructor. now apply leb_total.
      * destruct (leb x z); constructor;
          [now apply leb_total | now inversion Hd].
Qed.

Lemma sort_by_sorted (l : list A) : Sorted (le_of leb) (sort_by leb l).
Proof.
  induction l as [| x t IH]; simpl; [constructor |].
  now apply insert_by_sorted.
Qed.
End SortSorted.

Lemma price_leb_total (a b : MarginalResult) :
  price_leb a b = false -> price_leb b a = true.
Proof.
  unfold price_leb.
  destruct (marginal_price a) as [p |], (marginal_price b) as [q |];
    try reflexivity; try discriminate.
  intros H. apply Qle_bool_iff.
  destruct (Qlt_le_dec q p) as [Hlt | Hle]; [now apply Qlt_le_weak |].
  apply Qle_bool_iff in Hle. congruence.
Qed.

(** * The loop over the units *)

Lemma In_unit_frame (df : list JoinedRow) (name : string) (j : JoinedRow) :
  In j (unit_frame df name) <->
  In j df /\ unit_name (production j) = name.
Proof.
  unfold unit_frame. split.
  - intros H. apply (Permutation_in _ (sort_by_perm _ _)) in H.
    apply filter_In in H. now rewrite String.eqb_eq in H.
  - intros [H E].
    apply (Permutation_in _ (Permutation_sym (sort_by_perm _ _))).
    apply filter_In. now rewrite String.eqb_eq.
Qed.

(** On a non-empty frame the body either skips an all-zero unit or
    appends one result, which carries the unit's name and its maximum
    rounded generation. *)
Lemma estimate_unit_cases (name : string) (df : list JoinedRow) :
  df <> [] ->
  exists mx mn,
    series_max (rounded df) = Some mx /\
    series_min (rounded df) = Some mn /\
    ((mx = 0 /\ estimate_unit name df = Skip) \/
     (mx <> 0 /\ exists p, estimate_unit name df = Emit (mkResult name mx p))).
Proof.
  intros Hne.
  assert (Hne' : rounded df <> []) by (destruct df; [congruence | discriminate]).
  destruct (series_max_some _ Hne') as [mx Hmax].
  destruct (series_min_some _ Hne') as [mn Hmin].
  exists mx, mn. split; [exact Hmax | split; [exact Hmin |]].
  destruct (Z.eq_dec mx 0) as [-> | Hmx].
  - left. split; [reflexivity | now apply estimate_unit_skip].
  - right. split; [exact Hmx |].
    destruct (Z_lt_le_dec 0 mn) as [Hmn | Hmn].
    + eexists. now apply (estimate_unit_baseload name df mx mn).
    + eexists. now apply (estimate_unit_intermittent name df mx mn).
Qed.

Lemma estimate_unit_emit (name : string) (df : list JoinedRow)
    (r : MarginalResult) :
  estimate_unit name df = Emit r ->
  unit r = name /\
  max_generation r <> 0 /\
  exists j, In j df /\
            max_generation r = round50 (generation_mw (production j)).
Proof.
  intros H. destruct df as [| j0 t]; [discriminate |].
  destruct (estimate_unit_cases name (j0 :: t)) as [mx [mn [Hmax [_ Hc]]]];
    [discriminate |].
  destruct Hc as [[_ E] | [Hmx [p E]]]; rewrite E in H; [discriminate |].
  injection H as <-. simpl. repeat split; [exact Hmx |].
  apply series_max_spec in Hmax. destruct Hmax as [Hin _].
  apply In_rounded in Hin. destruct Hin as [j [Hj ->]]. eauto.
Qed.

Lemma estimate_units_spec (df : list JoinedRow) (names : list string) :
  (forall n, In n names -> unit_frame df n <> []) ->
  exists results,
    estimate_units df names = Some results /\
    map unit results = filter (emits df) names /\
    forall r, In r results ->
              estimate_unit (unit r) (unit_frame df (unit r)) = Emit r.
Proof.
  induction names as [| n rest IH]; intros Hne.
  - exists []. simpl. repeat split. intros r [].
  - destruct IH as [res [Hres [Hnames Hall]]].
    { intros m Hm. apply Hne. now right. }
    simpl. unfold emits at 1.
    destruct (estimate_unit_cases n (unit_frame df n)) as [mx [mn [_ [_ Hc]]]].
    { apply Hne. now left. }
    destruct Hc as [[_ E] | [_ [p E]]]; rewrite E.
    + exists res. auto.
    + exists (mkResult n mx p :: res). rewrite Hres. simpl.
      split; [reflexivity | split; [now rewrite Hnames |]].
      intros r [<- | Hr]; [exact E | now apply Hall].
Qed.

(** The script runs to the end of the loop on every input; the unit
    names of [results] are distinct, in the order of the loop, and each
    result carries a non-zero rounded generation of one of the unit's
    production rows. *)
Lemma marginal_results_spec (prod : list ProductionRow)
    (prices : list PriceRow) :
  exists results,
    marginal_results prod prices = Some results /\
    NoDup (map unit results) /\
    forall r, In r results ->
      max_generation r <> 0 /\
      exists row, In row prod /\ unit_name row = unit r /\
                  max_generation r = round50 (generation_mw row).
Proof.
  unfold marginal_results.
  set (df := join_prices prod prices).
  set (names := unique String.eqb (map (fun r => unit_name (production r)) df)).
  destruct (estimate_units_spec df names) as [res [Hres [Hnames Hall]]].
  { intros n Hn. apply unique_In in Hn; [| exact string_eqb_eq].
    apply in_map_iff in Hn. destruct Hn as [j [E Hj]].
    assert (H : In j (unit_frame df n)) by now apply In_unit_frame.
    destruct (unit_frame df n); [contradiction | discriminate]. }
  exists res. split; [exact Hres | split].
  - rewrite Hnames. apply NoDup_filter, unique_NoDup, string_eqb_eq.
  - intros r Hr. apply Hall in Hr. apply estimate_unit_emit in Hr.
    destruct Hr as [_ [Hnz [j [Hj E]]]]. split; [exact Hnz |].
    apply In_unit_frame in Hj. destruct Hj as [Hj Hname].
    exists (production j). repeat split; auto.
    now apply (join_prices_production prod prices).
Qed.

(** * The merit order *)

Lemma Zsum_perm (l l' : list Z) : Permutation l l' -> Zsum l = Zsum l'.
Proof. induction 1; simpl; lia. Qed.

Lemma last_cons {A : Type} (a d : A) (l : list A) :
  last (a :: l) d = last l a.
Proof.
  revert a d. induction l as [| b t IH]; intros a d; [reflexivity |].
  change (last (a :: b :: t) d) with (last (b :: t) d).
  now rewrite (IH b d), (IH b a).
Qed.

Lemma length_cum_sum_Z_from (acc : Z) (l : list Z) :
  List.length (cum_sum_Z_from acc l) = List.length l.
Proof.
  revert acc. induction l as [| x t IH]; intros acc; simpl; [reflexivity |].
  now rewrite IH.
Qed.

Lemma last_cum_sum_Z_from (acc : Z) (l : list Z) :
  last (cum_sum_Z_from acc l) acc = acc + Zsum l.
Proof.
  revert acc. induction l as [| x t IH]; intros acc; simpl Zsum.
  - simpl. lia.
  - cbn [cum_sum_Z_from]. rewrite last_cons, IH. lia.
Qed.

Lemma cum_sum_Z_from_le (acc : Z) (l : list Z) :
  (forall x, In x l -> 0 <= x) ->
  StronglySorted Z.le (cum_sum_Z_from acc l) /\
  Forall (Z.le acc) (cum_sum_Z_from acc l).
Proof.
  revert acc. induction l as [| x t IH]; intros acc H; simpl.
  - split; constructor.
  - destruct (IH (acc + x)) as [Hs Hf]; [intros y Hy; apply H; now right |].
    pose proof (H x (or_introl eq_refl)) as Hx.
    split; constructor; auto; try lia.
    eapply Forall_impl; [| exact Hf]. simpl. intros; lia.
Qed.

Lemma cum_sum_Z_from_lt (acc : Z) (l : list Z) :
  (forall x, In x l -> 0 < x) ->
  StronglySorted Z.lt (cum_sum_Z_from acc l) /\
  Forall (Z.lt acc) (cum_sum_Z_from acc l).
Proof.
  revert acc. induction l as [| x t IH]; intros acc H; simpl.
  - split; constructor.
  - destruct (IH (acc + x)) as [Hs Hf]; [intros y Hy; apply H; now right |].
    pose proof (H x (or_introl eq_refl)) as Hx.
    split; constructor; auto; try lia.
    eapply Forall_impl; [| exact Hf]. simpl. intros; lia.
Qed.

Lemma map_snd_combine {A B : Type} (l : list A) (l' : list B) :
  List.length l = List.length l' -> map snd (combine l l') = l'.
Proof.
  revert l'. induction l as [| a t IH]; intros [| b t'];
    simpl; try discriminate; try reflexivity.
  intros [= H]. f_equal. now apply IH.
Qed.

Lemma merit_order_results (results : list MarginalResult) :
  map result (merit_order results) = sort_by price_leb results.
Proof.
  unfold merit_order. rewrite map_map. simpl.
  apply map_fst_combine.
  unfold cum_sum. now rewrite length_cum_sum_Z_from, length_map.
Qed.

Lemma merit_order_cumulated (results : list MarginalResult) :
  map cumulated_generation (merit_order results)
    = cum_sum (map max_generation (sort_by price_leb results)).
Proof.
  unfold merit_order. rewrite map_map. simpl.
  apply map_snd_combine.
  unfold cum_sum. now rewrite length_cum_sum_Z_from, length_map.
Qed.

Lemma In_sorted_generation (results : list MarginalResult) (x : Z) :
  In x (map max_generation (sort_by price_leb results)) ->
  exists r, In r results /\ x = max_generation r.
Proof.
  intros H. apply in_map_iff in H. destruct H as [r [<- Hr]].
  exists r. split; [| reflexivity].
  now apply (Permutation_in _ (sort_by_perm price_leb results)).
Qed.

Lemma final_units_perm (results : list MarginalResult) :
  Permutation (final_units results) (map unit results).
Proof.
  unfold final_units. rewrite <- (map_map result unit), merit_order_results.
  apply Permutation_map, sort_by_perm.
Qed.

(** C6: the loop completes; in the final result set no unit name occurs
    twice, and a unit whose rounded generation is zero at each of its
    rows does not occur. *)
Theorem result_units_distinct_and_dispatched (prod : list ProductionRow)
    (prices : list PriceRow) :
  exists results,
    marginal_results prod prices = Some results /\
    NoDup (final_units results) /\
    forall name,
      (forall row, In row prod -> unit_name row = name ->
                   round50 (generation_mw row) = 0) ->
      ~ In name (final_units results).
Proof.
  destruct (marginal_results_spec prod prices) as [res [Hres [Hnd Hall]]].
  exists res. split; [exact Hres | split].
  - apply (Permutation_NoDup (Permutation_sym (final_units_perm res)) Hnd).
  - intros name Hzero Hin.
    apply (Permutation_in _ (final_units_perm res)) in Hin.
    apply in_map_iff in Hin. destruct Hin as [r [<- Hr]].
    destruct (Hall r Hr) as [Hnz [row [Hrow [Hname E]]]].
    apply Hnz. rewrite E. now apply Hzero.
Qed.

Lemma result_units_distinct_and_dispatched_witness :
  (forall row, In row sample_production -> unit_name row = "Z"%string ->
               round50 (generation_mw row) = 0) /\
  exists results,
    marginal_results sample_production sample_prices = Some results /\
    NoDup (final_units results) /\
    ~ In "Z"%string (final_units results).
Proof.
  set (prod := sample_production). set (prices := sample_prices).
  assert (Hz : forall row, In row prod -> unit_name row = "Z"%string ->
                           round50 (generation_mw row) = 0).
  { intros row [<- | [<- | [<- | [<- | [<- | [<- | []]]]]]] E;
      try reflexivity; discriminate E. }
  split; [exact Hz |].
  destruct (result_units_distinct_and_dispatched prod prices)
    as [res [H1 [H2 H3]]].
  exists res. split; [exact H1 | split; [exact H2 |]].
  exact (H3 "Z"%string Hz).
Defined.

Lemma price_le_of_leb (a b : MarginalResult) :
  le_of price_leb a b -> price_le a b.
Proof.
  unfold le_of, price_leb, price_le.
  destruct (marginal_price a), (marginal_price b); try discriminate; auto.
  apply Qle_bool_iff.
Qed.

Lemma price_le_trans (a b c : MarginalResult) :
  price_le a b -> price_le b c -> price_le a c.
Proof.
  unfold price_le.
  destruct (marginal_price a), (marginal_price b), (marginal_price c);
    try tauto.
  apply Qle_trans.
Qed.

Lemma merit_order_price_sorted (results : list MarginalResult) :
  StronglySorted price_le (map result (merit_order results)).
Proof.
  rewrite merit_order_results.
  apply Sorted_StronglySorted; [exact price_le_trans |].
  pose proof (sort_by_sorted price_leb price_leb_total results) as H.
  induction H as [| a l _ IH Hd]; constructor; [exact IH |].
  destruct Hd as [| b l Hab]; constructor. now apply price_le_of_leb.
Qed.

(** The running sum: the cell of a row is the sum of the generation of
    the rows before it and of its own. *)
Lemma cumulated_prefix (sorted : list MarginalResult) (acc : Z)
    (pre : list MeritRow) (row : MeritRow) (post : list MeritRow) :
  map (fun rc => mkMerit (fst rc) (snd rc))
      (combine sorted (cum_sum_Z_from acc (map max_generation sorted)))
    = pre ++ row :: post ->
  cumulated_generation row
    = acc + Zsum (map (fun m => max_generation (result m)) pre)
      + max_generation (result row).
Proof.
  revert acc pre. induction sorted as [| r t IH]; intros acc pre E.
  - destruct pre; discriminate.
  - cbn [map cum_sum_Z_from combine fst snd] in E.
    destruct pre as [| x pre].
    + injection E as <- _. simpl. lia.
    + injection E as <- E. apply IH in E. rewrite E. simpl. lia.
Qed.

(** C7 as stated fails: with negative readings a result can carry a
    negative generation and the running sum goes down.  Units A and B
    with one reading each, -60 and -120, give generation -50 and -100
    and [cumulated_generation] -50, -150. *)
Lemma negative_readings_decrease_the_running_sum :
  ~ (forall prod prices results,
        marginal_results prod prices = Some results ->
        StronglySorted Z.le
          (map cumulated_generation (merit_order results))).
Proof.
  intros H.
  specialize (H negative_production []
                [mkResult "A" (-50) None; mkResult "B" (-100) None]
                eq_refl).
  change (map cumulated_generation
            (merit_order [mkResult "A" (-50) None; mkResult "B" (-100) None]))
    with [-50; -150] in H.
  apply StronglySorted_inv in H. destruct H as [_ H].
  inversion H as [| x l Hle _]; subst. lia.
Qed.

(** C7, amended: the results are put in ascending order of marginal
    price, nulls first (a rearrangement of the results);
    [cumulated_generation] is the running sum of generation in that
    order, so its last value is the sum of the generation of all
    results; and, assuming all input generation values are
    non-negative, [cumulated_generation] never decreases along that
    order. *)
Theorem cumulated_generation_running_sum (prod : list ProductionRow)
    (prices : list PriceRow) :
  exists results,
    marginal_results prod prices = Some results /\
    Permutation (map result (merit_order results)) results /\
    StronglySorted price_le (map result (merit_order results)) /\
    (forall pre row post,
        merit_order results = pre ++ row :: post ->
        cumulated_generation row
          = Zsum (map (fun m => max_generation (result m)) pre)
            + max_generation (result row)) /\
    last (map cumulated_generation (merit_order results)) 0
      = Zsum (map max_generation results) /\
    (nonneg_generation prod ->
     StronglySorted Z.le (map cumulated_generation (merit_order results))).
Proof.
  destruct (marginal_results_spec prod prices) as [res [Hres [_ Hall]]].
  exists res. split; [exact Hres |].
  split; [rewrite merit_order_results; apply sort_by_perm |].
  split; [apply merit_order_price_sorted |].
  split.
  { intros pre row post E. unfold merit_order, cum_sum in E.
    rewrite (cumulated_prefix _ _ _ _ _ E). lia. }
  rewrite merit_order_cumulated. split.
  - unfold cum_sum. rewrite last_cum_sum_Z_from. simpl.
    apply Zsum_perm, Permutation_map, sort_by_perm.
  - intros Hpos. apply cum_sum_Z_from_le. intros x Hx.
    apply In_sorted_generation in Hx. destruct Hx as [r [Hr ->]].
    destruct (Hall r Hr) as [_ [row [Hrow [_ ->]]]].
    apply round50_nonneg, Hpos, Hrow.
Qed.

Lemma sample_production_nonneg : nonneg_generation sample_production.
Proof.
  intros row [<- | [<- | [<- | [<- | [<- | [<- | []]]]]]];
    simpl; unfold Qle; simpl; lia.
Defined.

Lemma cumulated_generation_running_sum_witness :
  nonneg_generation sample_production /\
  exists results,
    marginal_results sample_production sample_prices = Some results /\
    last (map cumulated_generation (merit_order results)) 0
      = Zsum (map max_generation results) /\
    StronglySorted Z.le (map cumulated_generation (merit_order results)).
Proof.
  set (prod := sample_production). set (prices := sample_prices).
  pose proof sample_production_nonneg as Hpos.
  split; [exact Hpos |].
  destruct (cumulated_generation_running_sum prod prices)
    as [res [H1 [_ [_ [_ [H2 H3]]]]]].
  exists res. split; [exact H1 | split; [exact H2 | exact (H3 Hpos)]].
Defined.

(** C10: with non-negative generation readings every result has a
    generation that is a positive multiple of 50, hence at least 50,
    and [cumulated_generation] strictly increases along the sorted
    order. *)
Theorem cumulated_generation_strictly_increasing
    (prod : list ProductionRow) (prices : list PriceRow) :
  nonneg_generation prod ->
  exists results,
    marginal_results prod prices = Some results /\
    (forall r, In r results ->
       (exists k, 0 < k /\ max_generation r = 50 * k) /\
       50 <= max_generation r) /\
    StronglySorted Z.lt (map cumulated_generation (merit_order results)).
Proof.
  intros Hpos.
  destruct (marginal_results_spec prod prices) as [res [Hres [_ Hall]]].
  assert (Hk : forall r, In r res ->
                 exists k, 0 < k /\ max_generation r = 50 * k).
  { intros r Hr. destruct (Hall r Hr) as [Hnz [row [Hrow [_ E]]]].
    pose proof (round50_nonneg _ (Hpos row Hrow)) as H0.
    exists (Qceiling (generation_mw row / 50)).
    rewrite E, round50_multiple in *. split; [lia | reflexivity]. }
  exists res. split; [exact Hres | split].
  - intros r Hr. destruct (Hk r Hr) as [k [Hk0 E]].
    split; [eauto | lia].
  - rewrite merit_order_cumulated. apply cum_sum_Z_from_lt. intros x Hx.
    apply In_sorted_generation in Hx. destruct Hx as [r [Hr ->]].
    destruct (Hk r Hr) as [k [Hk0 E]]. lia.
Qed.

Lemma cumulated_generation_strictly_increasing_witness :
  nonneg_generation sample_production /\
  exists results,
    marginal_results sample_production sample_prices = Some results /\
    (forall r, In r results -> 50 <= max_generation r) /\
    StronglySorted Z.lt (map cumulated_generation (merit_order results)).
Proof.
  set (prod := sample_production). set (prices := sample_prices).
  pose proof sample_production_nonneg as Hpos.
  split; [exact Hpos |].
  destruct (cumulated_generation_strictly_increasing prod prices Hpos)
    as [res [H1 [H2 H3]]].
  exists res. split; [exact H1 | split; [| exact H3]].
  intros r Hr. exact (proj2 (H2 r Hr)).
Defined.

(** * Rounding: order, fixed points and the zero test *)

Lemma round50_mono (g h : Q) : (g <= h)%Q -> round50 g <= round50 h.
Proof.
  intros H. unfold round50.
  assert (Hd : (g / 50 <= h / 50)%Q).
  { unfold Qdiv. apply Qmult_le_compat_r; [exact H | discriminate]. }
  apply Qceiling_resp_le in Hd. lia.
Qed.

Lemma round50_of_multiple (k : Z) : round50 (inject_Z (50 * k)) = 50 * k.
Proof.
  unfold round50.
  assert (E : (inject_Z (50 * k) / 50 == inject_Z k)%Q).
  { rewrite inject_Z_mult. field. }
  rewrite E, Qceiling_Z. lia.
Qed.

(** X1: rounding keeps the order of the readings, leaves a multiple of
    50 as it is, and so changes nothing when applied twice. *)
Theorem round50_monotone_idempotent :
  (forall g h : Q, (g <= h)%Q -> round50 g <= round50 h) /\
  (forall k : Z, round50 (inject_Z (50 * k)) = 50 * k) /\
  (forall g : Q, round50 (inject_Z (round50 g)) = round50 g).
Proof.
  split; [exact round50_mono | split; [exact round50_of_multiple |]].
  intros g. rewrite (round50_multiple g). apply round50_of_multiple.
Qed.

Lemma round50_monotone_idempotent_witness :
  (49 <= 51)%Q /\ round50 49 <= round50 51.
Proof.
  assert (H : (49 <= 51)%Q) by (unfold Qle; simpl; lia).
  split; [exact H | exact (proj1 round50_monotone_idempotent 49%Q 51%Q H)].
Defined.

Lemma round50_zero_iff (g : Q) :
  round50 g = 0 <-> (inject_Z (-50) < g)%Q /\ (g <= 0)%Q.
Proof.
  pose proof (round50_ge g) as Hge. pose proof (round50_lt g) as Hlt.
  split.
  - intros E. rewrite E in Hge, Hlt. split; [exact Hlt | exact Hge].
  - intros [Hlo Hhi].
    assert (H1 : round50 g - 50 < 0).
    { rewrite Zlt_Qlt. eapply Qlt_le_trans; [exact Hlt | exact Hhi]. }
    assert (H2 : -50 < round50 g).
    { rewrite Zlt_Qlt. eapply Qlt_le_trans; [exact Hlo | exact Hge]. }
    rewrite round50_multiple in *. lia.
Qed.

Lemma round50_pos (g : Q) : (0 < g)%Q -> 50 <= round50 g.
Proof.
  intros Hg. pose proof (round50_ge g) as Hge.
  assert (H : 0 < round50 g).
  { rewrite Zlt_Qlt. eapply Qlt_le_trans; [exact Hg | exact Hge]. }
  rewrite round50_multiple in *. lia.
Qed.

(** X2: the rounded generation is zero exactly for readings above -50
    and at most 0; every positive reading, however small, rounds to 50
    or more, so among non-negative readings only 0 counts as "not
    dispatched". *)
Theorem round50_zero_test (g : Q) :
  (round50 g = 0 <-> (inject_Z (-50) < g)%Q /\ (g <= 0)%Q) /\
  ((0 < g)%Q -> 50 <= round50 g) /\
  ((0 <= g)%Q -> (round50 g = 0 <-> (g == 0)%Q)).
Proof.
  split; [apply round50_zero_iff | split; [apply round50_pos |]].
  intros Hg. rewrite round50_zero_iff. split.
  - intros [_ H]. now apply Qle_antisym.
  - intros E. rewrite E. split; [reflexivity | apply Qle_refl].
Qed.

Lemma round50_zero_test_witness :
  (0 < 1 # 100)%Q /\ 50 <= round50 (1 # 100).
Proof.
  assert (H : (0 < 1 # 100)%Q) by reflexivity.
  split; [exact H | exact (proj1 (proj2 (round50_zero_test (1 # 100))) H)].
Defined.

(** * What [group_id] counts *)

Lemma nth_error_cum_sum_from (l : list bool) (acc i : nat) :
  (i < List.length l)%nat ->
  nth_error (cum_sum_from acc l) i
    = Some (acc + List.length (filter (fun b => b) (firstn (S i) l)))%nat.
Proof.
  revert acc i. induction l as [| b t IH]; intros acc i Hi; simpl in Hi;
    [lia |].
  destruct i as [| i].
  - simpl. destruct b; simpl; f_equal; lia.
  - cbn [cum_sum_from nth_error]. rewrite IH by lia.
    change (firstn (S (S i)) (b :: t)) with (b :: firstn (S i) t).
    destruct b; simpl; f_equal; lia.
Qed.

Lemma filter_id_map {A : Type} (f : A -> bool) (l : list A) :
  List.length (filter (fun b => b) (map f l)) = List.length (filter f l).
Proof.
  induction l as [| a t IH]; simpl; [reflexivity |].
  destruct (f a); simpl; now rewrite IH.
Qed.

Lemma nth_error_group_ids (gen : list Z) (i : nat) :
  (i < List.length gen)%nat ->
  nth_error (group_ids gen) i
    = Some (List.length (filter is_zero (firstn (S i) gen))).
Proof.
  intros Hi. unfold group_ids, cum_sum_bool.
  rewrite nth_error_cum_sum_from by now rewrite length_map.
  now rewrite firstn_map, filter_id_map.
Qed.

Lemma filter_nil_iff {A : Type} (f : A -> bool) (l : list A) :
  List.length (filter f l) = 0%nat <-> forall x, In x l -> f x = false.
Proof.
  induction l as [| a t IH]; simpl.
  - split; [intros _ x [] | reflexivity].
  - destruct (f a) eqn:E; simpl.
    + split; [discriminate |]. intros H.
      specialize (H a (or_introl eq_refl)). congruence.
    + rewrite IH. split.
      * intros H x [<- | Hx]; auto.
      * intros H x Hx. apply H. now right.
Qed.

(** X3: the group id of a row is the number of rows with zero rounded
    generation up to and including it; hence two rows are in the same
    group exactly when no row after the earlier one, up to and
    including the later one, has zero rounded generation. *)
Theorem group_id_counts_zero_rows :
  (forall (gen : list Z) (i : nat),
      (i < List.length gen)%nat ->
      nth_error (group_ids gen) i
        = Some (List.length (filter is_zero (firstn (S i) gen)))) /\
  (forall (pre : list Z) (a : Z) (mid : list Z) (b : Z) (post : list Z),
      let gen := pre ++ a :: mid ++ b :: post in
      let i := List.length pre in
      let j := (List.length pre + S (List.length mid))%nat in
      nth_error (group_ids gen) i = nth_error (group_ids gen) j <->
      forall x, In x (mid ++ [b]) -> x <> 0).
Proof.
  split; [exact nth_error_group_ids |].
  intros pre a mid b post gen i j.
  assert (Hlen : List.length gen
                 = (List.length pre + S (List.length mid + S (List.length post)))%nat).
  { unfold gen. rewrite length_app. simpl. rewrite length_app. simpl. lia. }
  rewrite !nth_error_group_ids by (unfold i, j; lia).
  assert (Ei : firstn (S i) gen = pre ++ [a]).
  { unfold gen, i.
    replace (S (List.length pre)) with (List.length pre + 1)%nat by lia.
    now rewrite firstn_app_2. }
  assert (Ej : firstn (S j) gen = (pre ++ [a]) ++ (mid ++ [b])).
  { unfold gen, j.
    replace (pre ++ a :: mid ++ b :: post)
      with (((pre ++ [a]) ++ (mid ++ [b])) ++ post)
      by (rewrite <- !app_assoc; reflexivity).
    replace (S (List.length pre + S (List.length mid)))
      with (List.length ((pre ++ [a]) ++ (mid ++ [b])) + 0)%nat
      by (rewrite !length_app; simpl; lia).
    rewrite firstn_app_2. simpl. now rewrite app_nil_r. }
  rewrite Ei, Ej, (filter_app is_zero (pre ++ [a])), length_app.
  split.
  - intros [= H] x Hx E.
    assert (H0 : List.length (filter is_zero (mid ++ [b])) = 0%nat) by lia.
    rewrite filter_nil_iff in H0. specialize (H0 x Hx).
    unfold is_zero in H0. apply Z.eqb_neq in H0. contradiction.
  - intros H. f_equal.
    assert (H0 : List.length (filter is_zero (mid ++ [b])) = 0%nat).
    { apply filter_nil_iff. intros x Hx. unfold is_zero.
      apply Z.eqb_neq. now apply H. }
    lia.
Qed.

Lemma group_id_counts_zero_rows_witness :
  (2 < List.length [0; 0; 100; 100; 0])%nat /\
  nth_error (group_ids [0; 0; 100; 100; 0]) 2 = Some 2%nat.
Proof.
  assert (H : (2 < List.length [0; 0; 100; 100; 0])%nat) by (simpl; lia).
  split; [exact H |].
  exact (proj1 group_id_counts_zero_rows [0; 0; 100; 100; 0] 2%nat H).
Defined.

(** X4: the join of line 98 neither drops nor repeats a row of the
    unit's frame, and the average it attaches to a row is the mean
    price of the rows that share the row's group id. *)
Theorem avg_price_join_keeps_rows (rows : list UnitRow) :
  map fst (with_avg_price rows) = rows /\
  List.length (with_avg_price rows) = List.length rows /\
  forall r o, In (r, o) (with_avg_price rows) ->
    In r rows /\
    o = mean (map price
                (filter (fun x => Nat.eqb (group_id x) (group_id r)) rows)).
Proof.
  rewrite with_avg_price_eq. split; [| split].
  - rewrite map_map. simpl. apply map_id.
  - apply length_map.
  - intros r o H. apply in_map_iff in H.
    destruct H as [x [[= <- <-] Hx]]. split; [exact Hx | reflexivity].
Qed.

Lemma avg_price_join_keeps_rows_witness :
  In (mkUnitRow 100 (Some 7%Q) 2, Some (12 # 2)%Q)
     (with_avg_price (unit_rows unit_C)) /\
  In (mkUnitRow 100 (Some 7%Q) 2) (unit_rows unit_C).
Proof.
  assert (H : In (mkUnitRow 100 (Some 7%Q) 2, Some (12 # 2)%Q)
                 (with_avg_price (unit_rows unit_C))).
  { right. right. right. left. reflexivity. }
  split; [exact H |].
  exact (proj1 (proj2 (proj2 (avg_price_join_keeps_rows (unit_rows unit_C)))
                  _ _ H)).
Defined.

(** * The marginal price lies among the unit's prices *)

Lemma inject_Z_of_nat_S (k : nat) :
  (inject_Z (Z.of_nat (S k)) == inject_Z (Z.of_nat k) + 1)%Q.
Proof. rewrite Nat2Z.inj_succ. unfold Z.succ. now rewrite inject_Z_plus. Qed.

Lemma Qsum_bounds (a b : Q) (l : list Q) :
  (forall x, In x l -> (a <= x)%Q /\ (x <= b)%Q) ->
  (a * inject_Z (Z.of_nat (List.length l)) <= Qsum l)%Q /\
  (Qsum l <= b * inject_Z (Z.of_nat (List.length l)))%Q.
Proof.
  induction l as [| x t IH]; intros H.
  - simpl. rewrite !Qmult_0_r. split; apply Qle_refl.
  - destruct IH as [IH1 IH2]; [intros y Hy; apply H; now right |].
    destruct (H x (or_introl eq_refl)) as [Hx1 Hx2].
    cbn [List.length Qsum fold_right]. fold (Qsum t).
    rewrite inject_Z_of_nat_S. split.
    + setoid_replace (a * (inject_Z (Z.of_nat (List.length t)) + 1))%Q
        with (a + a * inject_Z (Z.of_nat (List.length t)))%Q by ring.
      now apply Qplus_le_compat.
    + setoid_replace (b * (inject_Z (Z.of_nat (List.length t)) + 1))%Q
        with (b + b * inject_Z (Z.of_nat (List.length t)))%Q by ring.
      now apply Qplus_le_compat.
Qed.

Lemma mean_bounds (a b p : Q) (l : list (option Q)) :
  (forall q, In (Some q) l -> (a <= q)%Q /\ (q <= b)%Q) ->
  mean l = Some p -> (a <= p)%Q /\ (p <= b)%Q.
Proof.
  intros H. unfold mean.
  destruct (drop_nulls l) as [| x t] eqn:E; [discriminate |].
  intros [= <-].
  destruct (Qsum_bounds a b (x :: t)) as [H1 H2].
  { intros q Hq. apply H. apply In_drop_nulls. now rewrite E. }
  assert (Hn : (0 < inject_Z (Z.of_nat (List.length (x :: t))))%Q).
  { change 0%Q with (inject_Z 0). rewrite <- Zlt_Qlt. simpl. lia. }
  split.
  - now apply Qle_shift_div_l.
  - apply Qle_shift_div_r; [exact Hn | exact H2].
Qed.

(** X5: for an intermittently dispatched unit a marginal price that is
    not null is the average of one group of the unit's rows, so it
    lies between any two bounds of the unit's non-null prices: never
    below the lowest nor above the highest day-ahead price the unit was
    joined with. *)
Theorem marginal_price_within_unit_prices (name : string)
    (df : list JoinedRow) (mx mn : Z) (a b : Q) (r : MarginalResult)
    (p : Q) :
  series_max (rounded df) = Some mx ->
  series_min (rounded df) = Some mn ->
  mx <> 0 -> mn <= 0 ->
  (forall q, In (Some q) (map day_ahead_price df) ->
             (a <= q)%Q /\ (q <= b)%Q) ->
  estimate_unit name df = Emit r ->
  marginal_price r = Some p ->
  (a <= p)%Q /\ (p <= b)%Q.
Proof.
  intros Hmax Hmin Hmx Hmn Hb He Hp.
  rewrite (estimate_unit_intermittent name df mx mn Hmax Hmin Hmx Hmn) in He.
  injection He as <-. simpl in Hp.
  apply Qmin_list_In in Hp. apply In_max_rows_avg in Hp.
  destruct Hp as [x [_ [_ Hp]]]. symmetry in Hp.
  apply (mean_bounds a b p _) in Hp; [exact Hp |].
  intros q Hq. apply Hb. rewrite <- price_unit_rows.
  apply in_map_iff in Hq. destruct Hq as [y [Ey Hy]].
  apply filter_In in Hy. apply in_map_iff. exists y. tauto.
Qed.

Lemma marginal_price_within_unit_prices_witness :
  (5 <= 60 # 2)%Q /\ (60 # 2 <= 50)%Q.
Proof.
  apply (marginal_price_within_unit_prices "B" unit_B 100 0 5 50
           (mkResult "B" 100 (Some (60 # 2)%Q)) (60 # 2));
    try reflexivity; try discriminate.
  intros q [E | [E | [E | [E | []]]]]; injection E as <-;
    split; unfold Qle; simpl; lia.
Defined.

(** * The order of the rows *)

Lemma series_max_perm (l l' : list Z) (m : Z) :
  Permutation l l' -> series_max l = Some m -> series_max l' = Some m.
Proof.
  intros Hp Hm. destruct (series_max_spec _ _ Hm) as [Hin Hub].
  assert (Hne : l' <> []).
  { intros ->. apply Permutation_sym, Permutation_nil in Hp. now subst. }
  destruct (series_max_some _ Hne) as [m' Hm']. rewrite Hm'. f_equal.
  destruct (series_max_spec _ _ Hm') as [Hin' Hub'].
  apply (Permutation_in _ Hp) in Hin.
  apply (Permutation_in _ (Permutation_sym Hp)) in Hin'.
  specialize (Hub _ Hin'). specialize (Hub' _ Hin). lia.
Qed.

Lemma series_min_perm (l l' : list Z) (m : Z) :
  Permutation l l' -> series_min l = Some m -> series_min l' = Some m.
Proof.
  intros Hp Hm. destruct (series_min_spec _ _ Hm) as [Hin Hlb].
  assert (Hne : l' <> []).
  { intros ->. apply Permutation_sym, Permutation_nil in Hp. now subst. }
  destruct (series_min_some _ Hne) as [m' Hm']. rewrite Hm'. f_equal.
  destruct (series_min_spec _ _ Hm') as [Hin' Hlb'].
  apply (Permutation_in _ Hp) in Hin.
  apply (Permutation_in _ (Permutation_sym Hp)) in Hin'.
  specialize (Hlb _ Hin'). specialize (Hlb' _ Hin). lia.
Qed.

(** X6: whether a unit is skipped, treated as baseload or as
    intermittent, and the generation it is given, depend only on which
    rows the unit has, not on their order (which matters for rows of
    equal timestamp, whose order the sort leaves open); a baseload unit
    gets the very same result. *)
Theorem dispatch_independent_of_row_order (name : string)
    (df df' : list JoinedRow) :
  Permutation df df' ->
  same_dispatch (estimate_unit name df) (estimate_unit name df') /\
  (forall mn, series_min (rounded df) = Some mn -> 0 < mn ->
              estimate_unit name df = estimate_unit name df').
Proof.
  intros Hp.
  assert (Hr : Permutation (rounded df) (rounded df'))
    by now apply Permutation_map.
  destruct df as [| j t].
  { apply Permutation_nil in Hp. subst. split; [exact I | discriminate]. }
  assert (Hne' : df' <> []).
  { intros ->. apply Permutation_sym, Permutation_nil in Hp. discriminate. }
  destruct (estimate_unit_cases name (j :: t)) as [mx [mn [Hmax [Hmin Hc]]]];
    [discriminate |].
  destruct (estimate_unit_cases name df' Hne')
    as [mx' [mn' [Hmax' [Hmin' Hc']]]].
  rewrite (series_max_perm _ _ _ Hr Hmax) in Hmax'. injection Hmax' as <-.
  rewrite (series_min_perm _ _ _ Hr Hmin) in Hmin'. injection Hmin' as <-.
  split.
  - destruct Hc as [[Hz E] | [Hz [p E]]], Hc' as [[Hz' E'] | [Hz' [p' E']]];
      rewrite E, E'; simpl; auto; contradiction.
  - intros k Hk Hpos. rewrite Hmin in Hk. injection Hk as <-.
    assert (Hmx : mx <> 0).
    { destruct (series_max_spec _ _ Hmax) as [_ Hub].
      specialize (Hub mn (proj1 (series_min_spec _ _ Hmin))). lia. }
    rewrite (estimate_unit_baseload name (j :: t) mx mn) by assumption.
    rewrite (estimate_unit_baseload name df' mx mn); auto.
    + now apply (series_max_perm _ _ _ Hr).
    + now apply (series_min_perm _ _ _ Hr).
Qed.

Lemma dispatch_independent_of_row_order_witness :
  Permutation unit_A (rev unit_A) /\
  same_dispatch (estimate_unit "A" unit_A) (estimate_unit "A" (rev unit_A)).
Proof.
  assert (H : Permutation unit_A (rev unit_A)) by apply Permutation_rev.
  split; [exact H |].
  exact (proj1 (dispatch_independent_of_row_order "A" unit_A (rev unit_A) H)).
Defined.

Lemma datetime_leb_total (a b : JoinedRow) :
  (datetime (production a) <=? datetime (production b)) = false ->
  (datetime (production b) <=? datetime (production a)) = true.
Proof. rewrite Z.leb_gt, Z.leb_le. lia. Qed.

Lemma unit_frame_perm (df : list JoinedRow) (name : string) :
  Permutation (unit_frame df name) (rows_of name df).
Proof. apply sort_by_perm. Qed.

Lemma unit_frame_sorted (df : list JoinedRow) (name : string) :
  StronglySorted datetime_le (unit_frame df name).
Proof.
  apply Sorted_StronglySorted.
  - intros a b c. unfold datetime_le. lia.
  - unfold unit_frame.
    pose proof (sort_by_sorted
                  (fun a b => datetime (production a) <=? datetime (production b))
                  datetime_leb_total (rows_of name df)) as H.
    unfold rows_of in H.
    eapply Sorted_ind with (P := Sorted datetime_le) in H; [exact H | constructor |].
    intros a l _ IH Hd. constructor; [exact IH |].
    destruct Hd as [| b l Hab]; constructor.
    unfold le_of in Hab. unfold datetime_le. now apply Z.leb_le.
Qed.

Lemma perm_filter {A : Type} (f : A -> bool) (l l' : list A) :
  Permutation l l' -> Permutation (filter f l) (filter f l').
Proof.
  induction 1 as [| x l l' _ IH | x y l | l l' l'' _ IH1 _ IH2]; simpl.
  - constructor.
  - destruct (f x); [now constructor | exact IH].
  - destruct (f x), (f y); try reflexivity. apply perm_swap.
  - now transitivity (filter f l').
Qed.

(** Two ascending arrangements of the same rows coincide when no two
    rows share a timestamp. *)
Lemma sorted_perm_unique (l l' : list JoinedRow) :
  StronglySorted datetime_le l -> StronglySorted datetime_le l' ->
  Permutation l l' ->
  NoDup (map (fun r => datetime (production r)) l) ->
  l = l'.
Proof.
  revert l'. induction l as [| a t IH]; intros l' Hs Hs' Hp Hnd.
  - now apply Permutation_nil in Hp.
  - destruct l' as [| a' t'].
    { apply Permutation_sym, Permutation_nil in Hp. discriminate. }
    apply StronglySorted_inv in Hs. destruct Hs as [Hst Hfa].
    apply StronglySorted_inv in Hs'. destruct Hs' as [Hst' Hfa'].
    inversion Hnd as [| k ks Hni Hnd']; subst.
    assert (E : a = a').
    { assert (H1 : In a (a' :: t')) by (apply (Permutation_in _ Hp); now left).
      assert (H2 : In a' (a :: t))
        by (apply (Permutation_in _ (Permutation_sym Hp)); now left).
      destruct H1 as [H1 | H1]; [now symmetry |].
      destruct H2 as [H2 | H2]; [exact H2 |].
      rewrite Forall_forall in Hfa, Hfa'.
      specialize (Hfa _ H2). specialize (Hfa' _ H1).
      unfold datetime_le in Hfa, Hfa'.
      exfalso. apply Hni.
      replace (datetime (production a)) with (datetime (production a')) by lia.
      now apply (in_map (fun r => datetime (production r))). }
    subst a'. f_equal. apply IH; auto.
    now apply Permutation_cons_inv in Hp.
Qed.

Lemma unit_frame_order_free (df df' : list JoinedRow) (name : string) :
  Permutation df df' ->
  NoDup (map (fun r => datetime (production r)) (rows_of name df)) ->
  unit_frame df name = unit_frame df' name.
Proof.
  intros Hp Hnd.
  assert (H : Permutation (unit_frame df name) (unit_frame df' name)).
  { rewrite !unit_frame_perm. now apply perm_filter. }
  apply sorted_perm_unique; auto using unit_frame_sorted.
  apply (Permutation_NoDup
           (Permutation_map _ (Permutation_sym (unit_frame_perm df name)))
           Hnd).
Qed.

(** X7: line 61 gives the loop body exactly the rows of the unit (each
    once), in ascending order of timestamp. *)
Theorem unit_frame_sorted_rows_of_unit (df : list JoinedRow)
    (name : string) :
  Permutation (unit_frame df name) (rows_of name df) /\
  StronglySorted datetime_le (unit_frame df name) /\
  (forall j, In j (unit_frame df name) <->
             In j df /\ unit_name (production j) = name).
Proof.
  split; [apply unit_frame_perm | split; [apply unit_frame_sorted |]].
  intros j. apply In_unit_frame.
Qed.

(** * The price join *)

Lemma filter_none {A : Type} (f : A -> bool) (l : list A) :
  (forall x, In x l -> f x = false) -> filter f l = [].
Proof.
  induction l as [| a t IH]; intros H; simpl; [reflexivity |].
  rewrite (H a) by now left. apply IH. intros x Hx. apply H. now right.
Qed.

Lemma price_rows_at (prices : list PriceRow) (t : Z) :
  NoDup (map price_datetime prices) ->
  filter (fun kv => t =? fst kv)
         (map (fun p => (price_datetime p, hourly_price p)) prices)
    = match find (fun p => t =? price_datetime p) prices with
      | Some p => [(price_datetime p, hourly_price p)]
      | None => []
      end.
Proof.
  induction prices as [| p ps IH]; intros Hnd; [reflexivity |].
  inversion Hnd as [| k ks Hni Hnd']; subst. simpl.
  destruct (t =? price_datetime p) eqn:E.
  - f_equal. apply filter_none. intros kv Hkv.
    apply in_map_iff in Hkv. destruct Hkv as [q [<- Hq]]. simpl.
    apply Z.eqb_eq in E. apply Z.eqb_neq. intros E'. apply Hni.
    rewrite <- E, E'. now apply in_map.
  - now apply IH.
Qed.

Lemma join_prices_lookup (prod : list ProductionRow) (prices : list PriceRow) :
  NoDup (map price_datetime prices) ->
  join_prices prod prices
    = map (fun r => mkJoined r (price_at prices (datetime r))) prod.
Proof.
  intros Hnd. unfold join_prices, left_join.
  rewrite (flat_map_singleton _
             (fun r => (r, match find (fun p => datetime r =? price_datetime p)
                                      prices with
                           | Some p => Some (hourly_price p)
                           | None => None
                           end))).
  - rewrite map_map. apply map_ext. intros r. unfold price_at. simpl.
    now destruct (find _ prices).
  - intros r _. rewrite (price_rows_at prices (datetime r) Hnd).
    now destruct (find _ prices).
Qed.

Lemma price_at_present (prices : list PriceRow) (p : PriceRow) :
  NoDup (map price_datetime prices) -> In p prices ->
  price_at prices (price_datetime p) = hourly_price p.
Proof.
  intros Hnd Hp. unfold price_at.
  destruct (find _ prices) as [q |] eqn:E.
  - apply find_some in E. destruct E as [Hq E]. apply Z.eqb_eq in E.
    f_equal. clear -Hnd Hp Hq E.
    induction prices as [| x t IH]; [contradiction |].
    inversion Hnd as [| k ks Hni Hnd']; subst.
    destruct Hp as [-> | Hp], Hq as [-> | Hq]; auto.
    + exfalso. apply Hni. rewrite E. now apply in_map.
    + exfalso. apply Hni. rewrite <- E. now apply in_map.
  - apply (find_none _ _ E) in Hp. now rewrite Z.eqb_refl in Hp.
Qed.

Lemma price_at_absent (prices : list PriceRow) (t : Z) :
  (forall p, In p prices -> price_datetime p <> t) ->
  price_at prices t = None.
Proof.
  intros H. unfold price_at.
  destruct (find _ prices) as [q |] eqn:E; [| reflexivity].
  apply find_some in E. destruct E as [Hq E]. apply Z.eqb_eq in E.
  symmetry in E. now apply H in E.
Qed.

(** X8: when no two price rows share a timestamp (as after the hourly
    resampling) the join returns the production rows unchanged, in
    order and each once, with the price of the row's timestamp: the
    price of the price row at that timestamp, null when there is
    none. *)
Theorem join_prices_with_distinct_timestamps (prod : list ProductionRow)
    (prices : list PriceRow) :
  NoDup (map price_datetime prices) ->
  join_prices prod prices
    = map (fun r => mkJoined r (price_at prices (datetime r))) prod /\
  map production (join_prices prod prices) = prod /\
  (forall p, In p prices ->
             price_at prices (price_datetime p) = hourly_price p) /\
  (forall t, (forall p, In p prices -> price_datetime p <> t) ->
             price_at prices t = None).
Proof.
  intros Hnd. split; [now apply join_prices_lookup | split; [| split]].
  - rewrite join_prices_lookup by exact Hnd. rewrite map_map. apply map_id.
  - intros p Hp. now apply price_at_present.
  - apply price_at_absent.
Qed.

Lemma join_prices_with_distinct_timestamps_witness :
  NoDup (map price_datetime sample_prices) /\
  join_prices sample_production sample_prices
    = map (fun r => mkJoined r (price_at sample_prices (datetime r)))
          sample_production.
Proof.
  assert (H : NoDup (map price_datetime sample_prices)).
  { simpl. repeat constructor; simpl; intuition discriminate. }
  split; [exact H |].
  exact (proj1 (join_prices_with_distinct_timestamps
                  sample_production sample_prices H)).
Defined.

Lemma length_left_join_row (prices : list PriceRow) (r : ProductionRow) :
  List.length
    (match filter (fun kv => datetime r =? fst kv)
             (map (fun p => (price_datetime p, hourly_price p)) prices) with
     | [] => [(r, @None (option Q))]
     | ms => map (fun kv => (r, Some (snd kv))) ms
     end)
  = Nat.max 1
      (List.length (filter (fun p => datetime r =? price_datetime p) prices)).
Proof.
  rewrite filter_map_swap. simpl.
  destruct (filter (fun p => datetime r =? price_datetime p) prices)
    as [| p ps]; [reflexivity |].
  cbn [map]. rewrite !length_cons, !length_map. lia.
Qed.

(** X9: whatever the price table holds, the join drops no production
    row and invents none: a production row comes out once for each
    price row at its timestamp, and once (with a null price) when there
    is none; every joined row carries a production row of the input. *)
Theorem join_prices_row_count (prod : list ProductionRow)
    (prices : list PriceRow) :
  List.length (join_prices prod prices)
    = list_sum
        (map (fun r =>
                Nat.max 1
                  (List.length
                     (filter (fun p => datetime r =? price_datetime p)
                        prices)))
           prod) /\
  (List.length prod <= List.length (join_prices prod prices))%nat /\
  (forall r, In r prod <->
             exists j, In j (join_prices prod prices) /\ production j = r).
Proof.
  assert (E : List.length (join_prices prod prices)
              = list_sum
                  (map (fun r =>
                          Nat.max 1
                            (List.length
                               (filter
                                  (fun p => datetime r =? price_datetime p)
                                  prices)))
                     prod)).
  { unfold join_prices, left_join. rewrite length_map, length_flat_map.
    f_equal. apply map_ext. intros r. apply length_left_join_row. }
  split; [exact E | split].
  - rewrite E. clear E. induction prod as [| r t IH]; [simpl; lia |].
    unfold list_sum in *. cbn [map fold_right List.length].
    pose proof (Nat.le_max_l 1
                  (List.length
                     (filter (fun p => datetime r =? price_datetime p)
                        prices))).
    lia.
  - intros r. split; [apply join_prices_keeps |].
    intros [j [Hj <-]]. now apply (join_prices_production prod prices).
Qed.

Lemma perm_flat_map {A B : Type} (f : A -> list B) (l l' : list A) :
  Permutation l l' -> Permutation (flat_map f l) (flat_map f l').
Proof.
  induction 1 as [| x l l' _ IH | x y l | l l' l'' _ IH1 _ IH2]; simpl.
  - constructor.
  - now apply Permutation_app_head.
  - rewrite !app_assoc. apply Permutation_app_tail, Permutation_app_comm.
  - now transitivity (flat_map f l').
Qed.

Lemma join_prices_perm (prod prod' : list ProductionRow)
    (prices : list PriceRow) :
  Permutation prod prod' ->
  Permutation (join_prices prod prices) (join_prices prod' prices).
Proof.
  intros H. unfold join_prices, left_join.
  now apply Permutation_map, perm_flat_map.
Qed.

Lemma read_production_perm (files files' : list (list RawProductionRow)) :
  Permutation files files' ->
  Permutation (read_production files) (read_production files').
Proof.
  intros H. unfold read_production, select_production.
  apply Permutation_map.
  rewrite <- (map_id files), <- (map_id files'), <- !flat_map_concat_map.
  now apply perm_flat_map.
Qed.

(** X10: the order in which the production files are read does not
    change what the loop computes for a unit whose rows have pairwise
    distinct timestamps (price timestamps being distinct as well): its
    sorted frame, and with it its result, are the same. *)
Theorem file_order_irrelevant (files files' : list (list RawProductionRow))
    (prices : list PriceRow) (name : string) :
  Permutation files files' ->
  NoDup (map price_datetime prices) ->
  NoDup (map datetime
           (filter (fun r => String.eqb (unit_name r) name)
              (read_production files))) ->
  unit_frame (join_prices (read_production files) prices) name
    = unit_frame (join_prices (read_production files') prices) name /\
  estimate_unit name
      (unit_frame (join_prices (read_production files) prices) name)
    = estimate_unit name
        (unit_frame (join_prices (read_production files') prices) name).
Proof.
  intros Hp Hk Hnd.
  assert (E : unit_frame (join_prices (read_production files) prices) name
              = unit_frame (join_prices (read_production files') prices) name).
  { apply unit_frame_order_free.
    - now apply join_prices_perm, read_production_perm.
    - unfold rows_of. rewrite join_prices_lookup by exact Hk.
      rewrite filter_map_swap, map_map. simpl. exact Hnd. }
  split; [exact E | now rewrite E].
Qed.

Lemma file_order_irrelevant_witness :
  estimate_unit "P"
      (unit_frame
         (join_prices (read_production [sample_file_1; sample_file_2])
            sample_prices) "P")
    = estimate_unit "P"
        (unit_frame
           (join_prices (read_production [sample_file_2; sample_file_1])
              sample_prices) "P").
Proof.
  apply (file_order_irrelevant [sample_file_1; sample_file_2]
           [sample_file_2; sample_file_1] sample_prices "P").
  - apply perm_swap.
  - simpl. repeat constructor; simpl; intuition discriminate.
  - simpl. repeat constructor; simpl; intuition discriminate.
Defined.

(** * Which units get a result, and with which generation *)

Lemma max_rounded_of_unique (prod : list ProductionRow) (name : string)
    (g g' : Z) :
  max_rounded_of prod name g -> max_rounded_of prod name g' -> g = g'.
Proof.
  intros [[r [Hr [Hn E]]] Hub] [[r' [Hr' [Hn' E']]] Hub'].
  specialize (Hub r' Hr' Hn'). specialize (Hub' r Hr Hn). lia.
Qed.

Lemma frame_max_rounded (prod : list ProductionRow) (prices : list PriceRow)
    (name : string) (mx : Z) :
  series_max (rounded (unit_frame (join_prices prod prices) name)) = Some mx ->
  max_rounded_of prod name mx.
Proof.
  intros H. apply series_max_spec in H. destruct H as [Hin Hub]. split.
  - apply In_rounded in Hin. destruct Hin as [j [Hj ->]].
    apply In_unit_frame in Hj. destruct Hj as [Hj Hn].
    exists (production j). repeat split; auto.
    now apply (join_prices_production prod prices).
  - intros row Hrow Hn. apply Hub. apply In_rounded.
    destruct (join_prices_keeps prod prices row Hrow) as [j [Hj <-]].
    exists j. split; [| reflexivity]. now apply In_unit_frame.
Qed.

Lemma frame_nonempty (prod : list ProductionRow) (prices : list PriceRow)
    (row : ProductionRow) :
  In row prod ->
  unit_frame (join_prices prod prices) (unit_name row) <> [].
Proof.
  intros Hrow.
  destruct (join_prices_keeps prod prices row Hrow) as [j [Hj E]].
  assert (H : In j (unit_frame (join_prices prod prices) (unit_name row))).
  { apply In_unit_frame. split; [exact Hj | now rewrite E]. }
  destruct (unit_frame _ _); [contradiction | discriminate].
Qed.

(** The loop appends a result for a unit exactly when the largest
    rounded generation among the unit's production rows is not zero,
    and that value is the result's generation. *)
Lemma marginal_results_generation (prod : list ProductionRow)
    (prices : list PriceRow) :
  exists results,
    marginal_results prod prices = Some results /\
    forall name g,
      (exists r, In r results /\ unit r = name /\ max_generation r = g) <->
      (g <> 0 /\ max_rounded_of prod name g).
Proof.
  unfold marginal_results.
  set (df := join_prices prod prices).
  set (names := unique String.eqb (map (fun r => unit_name (production r)) df)).
  assert (Hnames : forall n, In n names <->
                     exists row, In row prod /\ unit_name row = n).
  { intros n. unfold names. rewrite unique_In by exact string_eqb_eq.
    rewrite in_map_iff. split.
    - intros [j [E Hj]]. exists (production j). split; [| exact E].
      now apply (join_prices_production prod prices).
    - intros [row [Hrow E]].
      destruct (join_prices_keeps prod prices row Hrow) as [j [Hj Ej]].
      exists j. split; [now rewrite Ej | exact Hj]. }
  destruct (estimate_units_spec df names) as [res [Hres [Hunits Hall]]].
  { intros n Hn. apply Hnames in Hn. destruct Hn as [row [Hrow <-]].
    now apply frame_nonempty. }
  exists res. split; [exact Hres |].
  intros name g. split.
  - intros [r [Hr [Hn Hg]]]. pose proof (Hall r Hr) as He. rewrite Hn in He.
    destruct (unit_frame df name) as [| j t] eqn:Ef; [discriminate |].
    destruct (estimate_unit_cases name (j :: t)) as [mx [mn [Hmax [_ Hc]]]];
      [discriminate |].
    destruct Hc as [[_ E] | [Hmx [p E]]]; rewrite E in He; [discriminate |].
    injection He as <-. simpl in Hg. subst g. split; [exact Hmx |].
    apply (frame_max_rounded prod prices). fold df. now rewrite Ef.
  - intros [Hg Hmaxof].
    destruct Hmaxof as [[row [Hrow [Hn E]]] Hub].
    assert (Hne : unit_frame df name <> []).
    { rewrite <- Hn. now apply frame_nonempty. }
    destruct (estimate_unit_cases name (unit_frame df name) Hne)
      as [mx [mn [Hmax [_ Hc]]]].
    assert (Emx : mx = g).
    { apply (max_rounded_of_unique prod name).
      - now apply (frame_max_rounded prod prices).
      - split; [exists row; auto | exact Hub]. }
    subst mx.
    destruct Hc as [[Hz _] | [_ [p Ep]]]; [contradiction |].
    assert (Hin : In name (map unit res)).
    { rewrite Hunits. apply filter_In. split.
      - apply Hnames. eauto.
      - unfold emits. now rewrite Ep. }
    apply in_map_iff in Hin. destruct Hin as [r [Hu Hr]].
    exists r. split; [exact Hr | split; [exact Hu |]].
    pose proof (Hall r Hr) as He. rewrite Hu, Ep in He.
    injection He as <-. reflexivity.
Qed.

(** X11: on production rows that all carry a unit name, the loop
    appends a result for a unit exactly when the largest rounded
    generation among the unit's production rows is not zero, the
    result's generation is that value, and so all results of one unit
    name carry the same generation. *)
Theorem result_generation_is_unit_maximum (prod : list ProductionRow)
    (prices : list PriceRow) :
  exists results,
    marginal_results prod prices = Some results /\
    (forall name g,
       (exists r, In r results /\ unit r = name /\ max_generation r = g) <->
       (g <> 0 /\ max_rounded_of prod name g)) /\
    (forall r r', In r results -> In r' results -> unit r = unit r' ->
                  max_generation r = max_generation r').
Proof.
  destruct (marginal_results_generation prod prices) as [res [H1 H2]].
  exists res. split; [exact H1 | split; [exact H2 |]].
  intros r r' Hr Hr' Hu.
  destruct (proj1 (H2 (unit r) (max_generation r))) as [_ Hm]; [eauto |].
  destruct (proj1 (H2 (unit r) (max_generation r'))) as [_ Hm'];
    [exists r'; auto |].
  exact (max_rounded_of_unique prod (unit r) _ _ Hm Hm').
Qed.

(** X12: units and generation do not depend on the prices nor on the
    order of the production rows: two runs on the same production rows
    give the same (unit, generation) pairs. *)
Theorem units_and_generation_independent_of_prices
    (prod prod' : list ProductionRow) (prices prices' : list PriceRow) :
  Permutation prod prod' ->
  exists results results',
    marginal_results prod prices = Some results /\
    marginal_results prod' prices' = Some results' /\
    forall name g,
      (exists r, In r results /\ unit r = name /\ max_generation r = g) <->
      (exists r, In r results' /\ unit r = name /\ max_generation r = g).
Proof.
  intros Hp.
  destruct (marginal_results_generation prod prices) as [res [H1 H2]].
  destruct (marginal_results_generation prod' prices') as [res' [H1' H2']].
  exists res, res'. split; [exact H1 | split; [exact H1' |]].
  intros name g. rewrite H2, H2'.
  assert (Hm : forall l l', Permutation l l' ->
                 max_rounded_of l name g -> max_rounded_of l' name g).
  { intros l l' Hl [[row [Hrow Hr]] Hub]. split.
    - exists row. split; [now apply (Permutation_in _ Hl) | exact Hr].
    - intros r Hr'. apply Hub.
      now apply (Permutation_in _ (Permutation_sym Hl)). }
  split; intros [Hg Hmax]; (split; [exact Hg |]).
  - now apply (Hm prod prod').
  - apply (Hm prod' prod); [now apply Permutation_sym | exact Hmax].
Qed.

Lemma units_and_generation_independent_of_prices_witness :
  exists results results',
    marginal_results sample_production sample_prices = Some results /\
    marginal_results (rev sample_production) far_prices = Some results' /\
    forall name g,
      (exists r, In r results /\ unit r = name /\ max_generation r = g) <->
      (exists r, In r results' /\ unit r = name /\ max_generation r = g).
Proof.
  apply units_and_generation_independent_of_prices, Permutation_rev.
Defined.

(** X13: with non-negative readings a unit is in the final result set
    exactly when one of its production rows has a positive reading. *)
Theorem unit_listed_iff_some_positive_reading (prod : list ProductionRow)
    (prices : list PriceRow) :
  nonneg_generation prod ->
  exists results,
    marginal_results prod prices = Some results /\
    forall name,
      In name (final_units results) <->
      exists row, In row prod /\ unit_name row = name /\
                  (0 < generation_mw row)%Q.
Proof.
  intros Hpos.
  destruct (marginal_results_generation prod prices) as [res [H1 H2]].
  exists res. split; [exact H1 |]. intros name. split.
  - intros Hin. apply (Permutation_in _ (final_units_perm res)) in Hin.
    apply in_map_iff in Hin. destruct Hin as [r [Hu Hr]].
    destruct (proj1 (H2 name (max_generation r))) as [Hg [[row [Hrow [Hn E]]] _]];
      [eauto |].
    exists row. split; [exact Hrow | split; [exact Hn |]].
    destruct (Qlt_le_dec 0 (generation_mw row)) as [Hlt | Hle]; [exact Hlt |].
    exfalso. apply Hg. rewrite <- E. apply round50_zero_iff.
    split; [| exact Hle].
    eapply Qlt_le_trans; [| apply (Hpos row Hrow)]. reflexivity.
  - intros [row [Hrow [Hn Hlt]]].
    assert (Hne : unit_frame (join_prices prod prices) name <> []).
    { rewrite <- Hn. now apply frame_nonempty. }
    assert (Hne' : rounded (unit_frame (join_prices prod prices) name) <> []).
    { destruct (unit_frame (join_prices prod prices) name);
        [congruence | discriminate]. }
    destruct (series_max_some _ Hne') as [mx Hmax].
    apply frame_max_rounded in Hmax.
    assert (Hmx : mx <> 0).
    { destruct Hmax as [_ Hub]. specialize (Hub row Hrow Hn).
      pose proof (round50_pos _ Hlt). lia. }
    destruct (proj2 (H2 name mx) (conj Hmx Hmax)) as [r [Hr [Hu _]]].
    apply (Permutation_in _ (Permutation_sym (final_units_perm res))).
    apply in_map_iff. eauto.
Qed.

Lemma unit_listed_iff_some_positive_reading_witness :
  nonneg_generation sample_production /\
  exists results,
    marginal_results sample_production sample_prices = Some results /\
    In "B"%string (final_units results).
Proof.
  split; [exact sample_production_nonneg |].
  destruct (unit_listed_iff_some_positive_reading sample_production
              sample_prices sample_production_nonneg) as [res [H1 H2]].
  exists res. split; [exact H1 |]. apply H2.
  exists (mkProduction 1 "B" 30%Q).
  split; [right; left; reflexivity | split; reflexivity].
Defined.

(** * The hourly price table *)

Lemma hour_start_spec (t : Z) :
  hour_start t mod hour = 0 /\ hour_start t <= t < hour_start t + hour.
Proof. unfold hour_start, hour. Z.div_mod_to_equations. lia. Qed.

Lemma hour_start_iff (x t : Z) :
  hour_start x = t <-> t mod hour = 0 /\ t <= x < t + hour.
Proof. unfold hour_start, hour. Z.div_mod_to_equations. lia. Qed.

Lemma strongly_sorted_map {A : Type} (f : A -> Z) (l : list A) :
  StronglySorted (fun a b => f a <= f b) l -> StronglySorted Z.le (map f l).
Proof.
  induction 1 as [| a t _ IH Hfa]; simpl; constructor; [exact IH |].
  rewrite Forall_forall in *. intros y Hy. apply in_map_iff in Hy.
  destruct Hy as [x [<- Hx]]. now apply Hfa.
Qed.

Lemma sorted_nodup_lt (l : list Z) :
  StronglySorted Z.le l -> NoDup l -> StronglySorted Z.lt l.
Proof.
  induction 1 as [| a t _ IH Hfa]; intros Hnd; constructor;
    inversion Hnd as [| k ks Hni Hnd']; subst.
  - now apply IH.
  - rewrite Forall_forall in *. intros y Hy. specialize (Hfa y Hy).
    assert (a <> y) by (intros ->; contradiction). lia.
Qed.

Lemma strongly_sorted_lt_nodup (l : list Z) :
  StronglySorted Z.lt l -> NoDup l.
Proof.
  induction 1 as [| a t _ IH Hfa]; constructor; [| exact IH].
  intros Hin. rewrite Forall_forall in Hfa. specialize (Hfa a Hin). lia.
Qed.

Lemma price_datetime_leb_total (a b : PriceRow) :
  (price_datetime a <=? price_datetime b) = false ->
  (price_datetime b <=? price_datetime a) = true.
Proof. rewrite Z.leb_gt, Z.leb_le. lia. Qed.

Lemma z_eqb_eq (x y : Z) : Z.eqb x y = true <-> x = y.
Proof. apply Z.eqb_eq. Qed.

Lemma resample_hourly_rows (rows : list PriceReading)
    (prices : list PriceRow) :
  resample_hourly rows = Some prices ->
  StronglySorted Z.lt (map price_datetime prices) /\
  forall p, In p prices <->
    (exists r, In r rows /\
               price_datetime p = hour_start (reading_datetime r)) /\
    hourly_price p = hourly_mean rows (price_datetime p).
Proof.
  unfold resample_hourly.
  destruct (ascending (map reading_datetime rows)); [| discriminate].
  intros [= <-].
  set (keys := unique Z.eqb
                 (map (fun r => hour_start (reading_datetime r)) rows)).
  set (table := map (fun b => mkPrice b (hourly_mean rows b)) keys).
  set (leb := fun a b => price_datetime a <=? price_datetime b).
  assert (Hperm : Permutation (sort_by leb table) table) by apply sort_by_perm.
  assert (Hkeys : map price_datetime table = keys).
  { unfold table. rewrite map_map. simpl. apply map_id. }
  split.
  - apply sorted_nodup_lt.
    + apply (strongly_sorted_map price_datetime).
      apply Sorted_StronglySorted; [intros a b c; lia |].
      pose proof (sort_by_sorted leb price_datetime_leb_total table) as H.
      eapply Sorted_ind
        with (P := Sorted (fun a b => price_datetime a <= price_datetime b))
        in H; [exact H | constructor |].
      intros a l _ IH Hd. constructor; [exact IH |].
      destruct Hd as [| b l Hab]; constructor.
      unfold le_of, leb in Hab. now apply Z.leb_le.
    + apply (Permutation_NoDup
               (Permutation_map price_datetime (Permutation_sym Hperm))).
      rewrite Hkeys. apply unique_NoDup, z_eqb_eq.
  - intros p. split.
    + intros Hp. apply (Permutation_in _ Hperm) in Hp.
      unfold table in Hp. apply in_map_iff in Hp.
      destruct Hp as [b [<- Hb]]. simpl. split; [| reflexivity].
      unfold keys in Hb. apply unique_In in Hb; [| exact z_eqb_eq].
      apply in_map_iff in Hb. destruct Hb as [r [<- Hr]]. eauto.
    + intros [[r [Hr Ek]] Ev].
      apply (Permutation_in _ (Permutation_sym Hperm)).
      unfold table. apply in_map_iff. exists (price_datetime p). split.
      * destruct p as [k v]. simpl in *. now rewrite Ev.
      * unfold keys. apply unique_In; [exact z_eqb_eq |].
        rewrite Ek. now apply (in_map (fun x => hour_start (reading_datetime x))).
Qed.

(** X14: the hourly table has one row for every hour that holds a
    reading and none for the other hours; its timestamps are on the
    hour, strictly ascending (hence pairwise distinct), and the price
    of an hour is the mean of the non-null readings in it. *)
Theorem resample_hourly_one_row_per_hour (rows : list PriceReading)
    (prices : list PriceRow) :
  resample_hourly rows = Some prices ->
  StronglySorted Z.lt (map price_datetime prices) /\
  (forall p, In p prices -> price_datetime p mod hour = 0) /\
  (forall p, In p prices <->
     (exists r, In r rows /\
                price_datetime p <= reading_datetime r
                  < price_datetime p + hour /\
                price_datetime p mod hour = 0) /\
     hourly_price p = hourly_mean rows (price_datetime p)).
Proof.
  intros H. destruct (resample_hourly_rows rows prices H) as [Hs Hin].
  split; [exact Hs | split].
  - intros p Hp. apply Hin in Hp. destruct Hp as [[r [_ ->]] _].
    apply hour_start_spec.
  - intros p. rewrite Hin. split.
    + intros [[r [Hr E]] Ev]. split; [| exact Ev]. exists r.
      symmetry in E. apply hour_start_iff in E. tauto.
    + intros [[r [Hr [Hb Hm]]] Ev]. split; [| exact Ev]. exists r.
      split; [exact Hr |]. symmetry. apply hour_start_iff. tauto.
Qed.

Lemma resample_hourly_one_row_per_hour_witness :
  resample_hourly sample_readings
    = Some [mkPrice 0 (Some (30 # 2)%Q); mkPrice 3600 None;
            mkPrice 7200 (Some (8 # 1)%Q)] /\
  StronglySorted Z.lt [0; 3600; 7200].
Proof.
  assert (H : resample_hourly sample_readings
              = Some [mkPrice 0 (Some (30 # 2)%Q); mkPrice 3600 None;
                      mkPrice 7200 (Some (8 # 1)%Q)]) by reflexivity.
  split; [exact H |].
  exact (proj1 (resample_hourly_one_row_per_hour _ _ H)).
Defined.

(** X16: joined with the resampled table, the production rows come out
    unchanged and each once; a row has a null price unless its
    timestamp is the start of an hour that holds a reading, in which
    case its price is that hour's mean. *)
Theorem join_after_resampling (rows : list PriceReading)
    (prices : list PriceRow) (prod : list ProductionRow) :
  resample_hourly rows = Some prices ->
  map production (join_prices prod prices) = prod /\
  (forall j, In j (join_prices prod prices) ->
     datetime (production j) mod hour <> 0 -> day_ahead_price j = None) /\
  (forall j, In j (join_prices prod prices) ->
     (forall r, In r rows ->
        hour_start (reading_datetime r) <> datetime (production j)) ->
     day_ahead_price j = None) /\
  (forall j r, In j (join_prices prod prices) -> In r rows ->
     hour_start (reading_datetime r) = datetime (production j) ->
     day_ahead_price j = hourly_mean rows (datetime (production j))).
Proof.
  intros H. destruct (resample_hourly_rows rows prices H) as [Hs Hin].
  assert (Hnd : NoDup (map price_datetime prices))
    by now apply strongly_sorted_lt_nodup.
  assert (Hmiss : forall j, In j (join_prices prod prices) ->
            (forall r, In r rows ->
               hour_start (reading_datetime r) <> datetime (production j)) ->
            day_ahead_price j = None).
  { intros j Hj Hno. apply (join_prices_miss prod prices j Hj).
    intros p Hp E. apply Hin in Hp. destruct Hp as [[r [Hr Ek]] _].
    apply (Hno r Hr). congruence. }
  split; [| split; [| split; [exact Hmiss |]]].
  - rewrite join_prices_lookup by exact Hnd. rewrite map_map. apply map_id.
  - intros j Hj Hmod. apply (Hmiss j Hj). intros r _ E. apply Hmod.
    rewrite <- E. apply hour_start_spec.
  - intros j r Hj Hr E. rewrite join_prices_lookup in Hj by exact Hnd.
    apply in_map_iff in Hj. destruct Hj as [row [<- _]]. simpl in *.
    set (p := mkPrice (datetime row) (hourly_mean rows (datetime row))).
    change (datetime row) with (price_datetime p) at 1.
    change (hourly_mean rows (datetime row)) with (hourly_price p).
    apply price_at_present; [exact Hnd |].
    apply Hin. split; [| reflexivity]. exists r. split; [exact Hr |].
    simpl. now symmetry.
Qed.

Lemma join_after_resampling_witness :
  exists prices,
    resample_hourly sample_readings = Some prices /\
    map production (join_prices sample_production prices) = sample_production.
Proof.
  eexists. assert (H : resample_hourly sample_readings = Some _) by reflexivity.
  split; [exact H |].
  exact (proj1 (join_after_resampling _ _ sample_production H)).
Defined.

(** * Missing generation readings *)

Lemma In_select_production (rows : list RawProductionRow)
    (row : ProductionRow) :
  In row (select_production rows) <->
  exists raw, In raw rows /\
              row = mkProduction (raw_datetime raw) (raw_unit raw)
                      (fill_null 0 (raw_generation raw)).
Proof.
  unfold select_production. rewrite in_map_iff.
  split; intros [raw [H1 H2]]; exists raw; auto.
Qed.

(** X17: in the concatenated production frame, a unit whose generation
    cells are all null ("n/e" or blank) is filled with 0 and treated as
    never dispatched: it has no row in the final result set. *)
Theorem unit_without_readings_is_dropped (rows : list RawProductionRow)
    (prices : list PriceRow) (name : string) :
  (forall raw, In raw rows -> raw_unit raw = name ->
               raw_generation raw = None) ->
  exists results,
    marginal_results (select_production rows) prices = Some results /\
    ~ In name (final_units results).
Proof.
  intros Hnull.
  destruct (marginal_results_spec (select_production rows) prices)
    as [res [Hres [_ Hall]]].
  exists res. split; [exact Hres |]. intros Hin.
  apply (Permutation_in _ (final_units_perm res)) in Hin.
  apply in_map_iff in Hin. destruct Hin as [r [Hu Hr]].
  destruct (Hall r Hr) as [Hnz [row [Hrow [Hn E]]]].
  apply In_select_production in Hrow. destruct Hrow as [raw [Hraw ->]].
  simpl in Hn, E. rewrite (Hnull raw Hraw) in E by congruence.
  apply Hnz. rewrite E. reflexivity.
Qed.

Lemma unit_without_readings_is_dropped_witness :
  (forall raw, In raw sample_null_file ->
               raw_unit raw = "N"%string -> raw_generation raw = None) /\
  exists results,
    marginal_results (select_production sample_null_file) sample_prices
      = Some results /\
    ~ In "N"%string (final_units results).
Proof.
  assert (H : forall raw, In raw sample_null_file ->
                raw_unit raw = "N"%string -> raw_generation raw = None).
  { intros raw [<- | [<- | [<- | []]]] E; try reflexivity; discriminate E. }
  split; [exact H |].
  exact (unit_without_readings_is_dropped sample_null_file sample_prices
           "N" H).
Defined.

(** * The bars of the chart *)

Lemma tiles_cum_sum (sorted : list MarginalResult) (acc : Z) :
  tiles acc
    (bars (map (fun rc => mkMerit (fst rc) (snd rc))
             (combine sorted
                (cum_sum_Z_from acc (map max_generation sorted))))).
Proof.
  revert acc. induction sorted as [| r t IH]; intros acc; simpl; [exact I |].
  split; [lia | apply IH].
Qed.

Lemma tiles_adjacent (s : Z) (pre : list Bar) (a b : Bar) (post : list Bar) :
  tiles s (pre ++ a :: b :: post) -> bar_left b = bar_left a + bar_width a.
Proof.
  revert s. induction pre as [| x pre IH]; intros s; simpl.
  - intros [-> [E _]]. exact E.
  - intros [_ H]. now apply (IH _ H).
Qed.

Lemma tiles_right_edge (s : Z) (bs : list Bar) :
  tiles s bs ->
  last (map (fun b => bar_left b + bar_width b) bs) s
    = s + Zsum (map bar_width bs).
Proof.
  revert s. induction bs as [| b t IH]; intros s; simpl Zsum.
  - simpl. lia.
  - intros [E H]. cbn [map]. rewrite last_cons.
    rewrite E. rewrite (IH _ H). simpl. lia.
Qed.

Lemma bars_width (results : list MarginalResult) :
  map bar_width (bars (merit_order results))
    = map max_generation (sort_by price_leb results).
Proof.
  unfold bars. rewrite map_map. simpl.
  rewrite <- (map_map result max_generation), merit_order_results.
  reflexivity.
Qed.

Lemma draw_bars_some (df : list MeritRow) (bs : list Bar) :
  draw_bars df = Some bs ->
  bs = bars df /\
  forall row, In row df -> marginal_price (result row) <> None.
Proof.
  unfold draw_bars.
  destruct (forallb _ df) eqn:E; [| discriminate].
  intros [= <-]. split; [reflexivity |].
  rewrite forallb_forall in E. intros row Hrow. specialize (E row Hrow).
  destruct (marginal_price (result row)); [discriminate | discriminate E].
Qed.

Lemma draw_bars_none (df : list MeritRow) (row : MeritRow) :
  In row df -> marginal_price (result row) = None -> draw_bars df = None.
Proof.
  intros Hrow Hp. unfold draw_bars.
  destruct (forallb _ df) eqn:E; [| reflexivity].
  rewrite forallb_forall in E. specialize (E row Hrow).
  rewrite Hp in E. discriminate E.
Qed.

(** X18: when the chart is drawn (the results are not empty and every
    marginal price is present) the bars are laid side by side in merit
    order: the first one starts at 0, each of the others starts where
    the one before it ends, every bar carries its unit as label, its
    generation as width and its marginal price as height, and the
    right end of the last bar is the sum of the generation of all
    results.  A result with a null marginal price makes the drawing
    raise. *)
Theorem bars_tile_the_axis (results : list MarginalResult) :
  (forall bs, chart results = Some bs ->
     results <> [] /\
     (forall r, In r results -> marginal_price r <> None) /\
     tiles 0 bs /\
     (forall pre a b post,
         bs = pre ++ a :: b :: post ->
         bar_left b = bar_left a + bar_width a) /\
     last (map (fun b => bar_left b + bar_width b) bs) 0
       = Zsum (map max_generation results) /\
     map (fun b => (bar_label b, bar_width b, bar_height b)) bs
       = map (fun r => (unit r, max_generation r, marginal_price r))
             (map result (merit_order results))) /\
  ((exists r, In r results /\ marginal_price r = None) ->
   chart results = None).
Proof.
  split.
  - intros bs Hc. destruct results as [| r0 t] eqn:Er; [discriminate |].
    rewrite <- Er in *. clear Er r0 t. rename Hc into Hc0.
    assert (Hc : draw_bars (merit_order results) = Some bs).
    { destruct results; [discriminate | exact Hc0]. }
    destruct (draw_bars_some _ _ Hc) as [-> Hprice].
    assert (Ht : tiles 0 (bars (merit_order results))).
    { unfold merit_order, cum_sum. apply tiles_cum_sum. }
    split; [destruct results; [discriminate Hc0 | discriminate] |].
    split.
    { intros r Hr.
      apply (Permutation_in _ (Permutation_sym (sort_by_perm price_leb results)))
        in Hr.
      rewrite <- merit_order_results in Hr. apply in_map_iff in Hr.
      destruct Hr as [row [<- Hrow]]. now apply Hprice. }
    split; [exact Ht | split; [| split]].
    + intros pre a b post E. rewrite E in Ht.
      exact (tiles_adjacent _ _ _ _ _ Ht).
    + rewrite (tiles_right_edge 0 _ Ht), bars_width. simpl.
      apply Zsum_perm, Permutation_map, sort_by_perm.
    + unfold bars. rewrite !map_map. reflexivity.
  - intros [r [Hr Hp]].
    destruct results as [| r0 t] eqn:Er; [contradiction |].
    rewrite <- Er in *. clear Er r0 t.
    assert (Hin : In r (map result (merit_order results))).
    { rewrite merit_order_results.
      now apply (Permutation_in _
                   (Permutation_sym (sort_by_perm price_leb results))). }
    apply in_map_iff in Hin. destruct Hin as [row [E Hrow]].
    assert (Hd : draw_bars (merit_order results) = None).
    { apply (draw_bars_none _ row Hrow). now rewrite E. }
    destruct results; [contradiction | exact Hd].
Qed.

Lemma bars_tile_the_axis_witness :
  chart sample_results
    = Some [mkBar 0 50 (Some 0%Q) "B"; mkBar 50 150 (Some (20 # 1)%Q) "P"] /\
  tiles 0 [mkBar 0 50 (Some 0%Q) "B"; mkBar 50 150 (Some (20 # 1)%Q) "P"].
Proof.
  assert (H : chart sample_results
              = Some [mkBar 0 50 (Some 0%Q) "B";
                      mkBar 50 150 (Some (20 # 1)%Q) "P"]) by reflexivity.
  split; [exact H |].
  exact (proj1 (proj2 (proj2 (proj1 (bars_tile_the_axis sample_results)
                                _ H)))).
Defined.

Lemma tiles_after (s lo : Z) (mid : list Bar) (b : Bar) (post : list Bar) :
  lo <= s -> tiles s (mid ++ b :: post) ->
  (forall y, In y mid -> 0 <= bar_width y) -> lo <= bar_left b.
Proof.
  revert s. induction mid as [| y mid IH]; intros s Hs Ht Hw; simpl in Ht.
  - destruct Ht as [E _]. lia.
  - destruct Ht as [_ Ht]. apply (IH (s + bar_width y)); auto.
    + specialize (Hw y (or_introl eq_refl)). lia.
    + intros z Hz. apply Hw. now right.
Qed.

Lemma tiles_apart (s : Z) (pre : list Bar) (a : Bar) (mid : list Bar)
    (b : Bar) (post : list Bar) :
  tiles s (pre ++ a :: mid ++ b :: post) ->
  (forall y, In y mid -> 0 <= bar_width y) ->
  bar_left a + bar_width a <= bar_left b.
Proof.
  revert s. induction pre as [| x pre IH]; intros s Ht Hw; simpl in Ht.
  - destruct Ht as [E Ht].
    apply (tiles_after (s + bar_width a) _ mid b post); auto. lia.
  - destruct Ht as [_ Ht]. now apply (IH _ Ht).
Qed.

(** X19: with non-negative readings every bar has a positive width (at
    least 50), so no two bars overlap: a bar further along the merit
    order starts at or after the right end of an earlier one. *)
Theorem bars_do_not_overlap (prod : list ProductionRow)
    (prices : list PriceRow) :
  nonneg_generation prod ->
  exists results,
    marginal_results prod prices = Some results /\
    (forall b, In b (bars (merit_order results)) -> 50 <= bar_width b) /\
    forall pre a mid b post,
      bars (merit_order results) = pre ++ a :: mid ++ b :: post ->
      bar_left a + bar_width a <= bar_left b.
Proof.
  intros Hpos.
  destruct (marginal_results_spec prod prices) as [res [Hres [_ Hall]]].
  exists res. split; [exact Hres |].
  assert (Hw : forall b, In b (bars (merit_order res)) -> 50 <= bar_width b).
  { intros b Hb. apply (in_map bar_width) in Hb. rewrite bars_width in Hb.
    apply In_sorted_generation in Hb. destruct Hb as [r [Hr ->]].
    destruct (Hall r Hr) as [Hnz [row [Hrow [_ E]]]].
    pose proof (round50_nonneg _ (Hpos row Hrow)) as H0.
    rewrite E, round50_multiple in *. lia. }
  split; [exact Hw |].
  assert (Ht : tiles 0 (bars (merit_order res))).
  { unfold merit_order, cum_sum. apply tiles_cum_sum. }
  intros pre a mid b post E. rewrite E in Ht.
  apply (tiles_apart _ _ _ _ _ _ Ht).
  intros y Hy. assert (50 <= bar_width y); [| lia].
  apply Hw. rewrite E. apply in_or_app. right. right.
  apply in_or_app. now left.
Qed.

Lemma bars_do_not_overlap_witness :
  nonneg_generation sample_production /\
  exists results,
    marginal_results sample_production sample_prices = Some results /\
    forall b, In b (bars (merit_order results)) -> 50 <= bar_width b.
Proof.
  split; [exact sample_production_nonneg |].
  destruct (bars_do_not_overlap sample_production sample_prices
              sample_production_nonneg) as [res [H1 [H2 _]]].
  exists res. split; [exact H1 | exact H2].
Defined.

(** * The left end of the MTU range *)

Lemma before_separator_none (s : string) :
  no_dash s -> mtu_start s = s.
Proof.
  unfold mtu_start. induction s as [| c rest IH]; [reflexivity |].
  intros [Hc Hrest]. cbn [before_separator].
  replace (String.prefix " - " (String c rest)) with false.
  - now rewrite IH.
  - cbn [String.prefix].
    destruct (Ascii.ascii_dec " " c) as [<- |]; [| reflexivity].
    destruct rest as [| d rest']; [reflexivity |].
    destruct Hrest as [Hd _]. cbn [String.prefix].
    destruct (Ascii.ascii_dec "-" d) as [<- |]; [congruence | reflexivity].
Qed.

Lemma before_separator_split (a b : string) :
  no_dash a -> mtu_start (a ++ " - " ++ b) = a.
Proof.
  unfold mtu_start.
  induction a as [| c rest IH]; [intros _; now destruct b |].
  intros [Hc Hrest].
  change (String c rest ++ " - " ++ b)%string
    with (String c (rest ++ " - " ++ b)).
  cbn [before_separator].
  replace (String.prefix " - " (String c (rest ++ " - " ++ b))) with false.
  - now rewrite IH.
  - cbn [String.prefix].
    destruct (Ascii.ascii_dec " " c) as [<- |]; [| reflexivity].
    destruct rest as [| d rest']; [reflexivity |].
    destruct Hrest as [Hd _].
    change (String d rest' ++ " - " ++ b)%string
      with (String d (rest' ++ " - " ++ b)).
    cbn [String.prefix].
    destruct (Ascii.ascii_dec "-" d) as [<- |]; [congruence | reflexivity].
Qed.

(** X20: from an MTU text "start - end" whose start holds no "-" (as
    in "01/01/2025 00:00:00") the script keeps exactly the start,
    whatever follows the separator; a text without "-" is kept
    whole. *)
Theorem mtu_start_is_left_end :
  (forall a b : string, no_dash a -> mtu_start (a ++ " - " ++ b) = a) /\
  (forall s : string, no_dash s -> mtu_start s = s).
Proof.
  split; [exact before_separator_split | exact before_separator_none].
Qed.

Lemma mtu_start_is_left_end_witness :
  no_dash "01/01/2025 00:00:00"%string /\
  mtu_start "01/01/2025 00:00:00 - 01/01/2025 00:15:00"%string
    = "01/01/2025 00:00:00"%string.
Proof.
  assert (H : no_dash "01/01/2025 00:00:00"%string).
  { simpl. repeat (split; [discriminate |]). exact I. }
  split; [exact H |].
  exact (proj1 mtu_start_is_left_end "01/01/2025 00:00:00"%string
           "01/01/2025 00:15:00"%string H).
Defined.
